(** * SG-universal: the Wordpress connectors and the Mongo page store

    A shallow embedding of

    - the page-number connector ([WordpressConnector.getPages] of the
      variant that asks for [?page=N] until the body is [null]),
    - the link-following connector ([WordpressConnector.loop] and
      [getPages] of the variant that follows [_links.next[0].href]),
    - [MongoStorePersistence] ([find], [findOne], [save], [remove]),
    - [TemplateService],

    with the properties of the pagination traversal, of the store and of
    the template service stated and proved over it. *)

From Stdlib Require Import ZArith.
From stdpp Require Import gmap strings list pretty.

Open Scope string_scope.
Set Warnings "-register-all".

(** ** JavaScript values

    Response bodies are what [response.getBody()] hands back: parsed JSON,
    or the raw text when the body is not JSON.  [VUndefined] is the value
    of a missing property.  Numbers are kept as integers: the connectors
    only ever test a number for being zero.  [VObj] lists the own
    properties of an object in the order in which the engine enumerates
    them, with distinct keys. *)

Inductive value : Type :=
| VUndefined
| VNull
| VBool (b : bool)
| VNum (n : Z)
| VStr (s : string)
| VArr (xs : list value)
| VObj (props : list (string * value)).

(** What a [throw] or a rejected promise carries. *)
Inductive exn : Type :=
| TypeError                       (* property read on null or undefined *)
| Raised (reason : value)         (* what a library call threw or rejected with *)
| Refused.                        (* the Error of requestify for a missing address *)

(** Evaluation of an expression that may throw. *)
Definition js (A : Type) : Type := exn + A.

Definition js_bind {A B : Type} (m : js A) (k : A -> js B) : js B :=
  match m with
  | inl e => inl e
  | inr a => k a
  end.

Notation "'let*' x ':=' m 'in' k" := (js_bind m (fun x => k))
  (at level 10, x name, m at level 100, k at level 200).

(** JavaScript's ToBoolean. *)
Definition truthy (v : value) : bool :=
  match v with
  | VUndefined | VNull => false
  | VBool b => b
  | VNum n => negb (n =? 0)%Z
  | VStr s => negb (String.eqb s EmptyString)
  | VArr _ | VObj _ => true
  end.

Fixpoint assoc (k : string) (props : list (string * value)) : value :=
  match props with
  | [] => VUndefined
  | (k', v) :: rest => if String.eqb k k' then v else assoc k rest
  end.

(** [v[k]] for the property names the connectors read ([_links], [next],
    [href]): no array, string, number or boolean has them, an object has
    them when it lists them, and reading them off [null] or [undefined]
    throws. *)
Definition get_prop (v : value) (k : string) : js value :=
  match v with
  | VUndefined | VNull => inl TypeError
  | VObj props => inr (assoc k props)
  | VBool _ | VNum _ | VStr _ | VArr _ => inr VUndefined
  end.

Definition char_at (s : string) (i : nat) : value :=
  match String.get i s with
  | Some c => VStr (String c EmptyString)
  | None => VUndefined
  end.

(** [v[i]] for an index [i]. *)
Definition get_index (v : value) (i : nat) : js value :=
  match v with
  | VUndefined | VNull => inl TypeError
  | VArr xs => inr (nth i xs VUndefined)
  | VStr s => inr (char_at s i)
  | VObj props => inr (assoc (pretty i) props)
  | VBool _ | VNum _ => inr VUndefined
  end.

(** lodash's [_.values]: the elements of an array, the property values of
    an object, the characters of a string, and nothing for anything else
    ([null] and [undefined] included). *)
Definition values (v : value) : list value :=
  match v with
  | VArr xs => xs
  | VObj props => map snd props
  | VStr s => map (fun c => VStr (String c EmptyString)) (String.list_ascii_of_string s)
  | VUndefined | VNull | VBool _ | VNum _ => []
  end.

(** [Array.prototype.concat]: an array argument is spread, anything else
    is appended as one element; the receiver is left as it was and the
    merged array is the return value. *)
Definition concat (xs : list value) (arg : value) : list value :=
  match arg with
  | VArr ys => xs ++ ys
  | _ => xs ++ [arg]
  end.

(** ** Numbers

    A Number is an IEEE 754 double.  One with an integer value is kept
    as that integer; the sum of two of them is the double nearest to the
    exact sum, and the string it converts to is the shortest decimal that
    reads back as the same double. *)

(** The double nearest to the integer [z], the one with the even mantissa
    when two are equally near (for [z] below the largest double). *)
Definition round_double (z : Z) : Z :=
  let a := Z.abs z in
  if (a <? 2 ^ 53)%Z then z
  else
    let e := (Z.log2 a - 52)%Z in
    let q := Z.shiftr a e in
    let r := (a - Z.shiftl q e)%Z in
    let half := Z.shiftl 1 (e - 1) in
    let m := if (r <? half)%Z then q
             else if (half <? r)%Z then (q + 1)%Z
             else if Z.even q then q else (q + 1)%Z in
    (Z.sgn z * Z.shiftl m e)%Z.

(** [n++] leaves [n + 1] in the variable. *)
Definition js_incr (n : Z) : Z := round_double (n + 1).

(** The decimal with the fewest significant digits that reads back as the
    double [x]: at each length the multiples of [unit] on either side of
    [x] are tried, the nearer first. *)
Fixpoint shortest (fuel : nat) (unit : Z) (x : Z) : Z :=
  match fuel with
  | O => x
  | S fuel' =>
      let lo := (x / unit * unit)%Z in
      let hi := (lo + unit)%Z in
      let lo_ok := (round_double lo =? x)%Z in
      let hi_ok := (round_double hi =? x)%Z in
      if lo_ok && hi_ok then
        if (x - lo <? hi - x)%Z then lo
        else if (hi - x <? x - lo)%Z then hi
        else if Z.even (lo / unit) then lo else hi
      else if lo_ok then lo
      else if hi_ok then hi
      else shortest fuel' (unit / 10) x
  end.

Fixpoint strip_zeros (fuel : nat) (c : Z) : Z :=
  match fuel with
  | O => c
  | S fuel' => if (c mod 10 =? 0)%Z then strip_zeros fuel' (c / 10) else c
  end.

(** [d.ddde+n], the notation from 1e21 on. *)
Definition exponent_form (c : Z) : string :=
  let n := String.length (pretty c) in
  match pretty (strip_zeros n c) with
  | EmptyString => EmptyString
  | String d EmptyString => String d EmptyString +:+ "e+" +:+ pretty (n - 1)
  | String d more =>
      String d EmptyString +:+ "." +:+ more +:+ "e+" +:+ pretty (n - 1)
  end.

(** [String(n)], and what [s + n] appends to a string [s]: every digit
    up to 2^53, the shortest digits followed by zeros up to 1e21, and
    the exponent notation from there on. *)
Definition number_to_string (n : Z) : string :=
  let a := Z.abs n in
  if (a <? 2 ^ 53)%Z then pretty n
  else
    let len := String.length (pretty a) in
    let c := shortest len (10 ^ (Z.of_nat len - 1)) a in
    (if (n <? 0)%Z then "-" else EmptyString) +:+
    (if (c <? 10 ^ 21)%Z then pretty c else exponent_form c).

(** ** The upstream API and requestify *)

Inductive http_method : Type := GET | POST.

Record request : Type := Request {
  method : http_method;
  target : value;
  redirect : bool;
  timeout : Z
}.

Record options : Type := Options {
  opt_redirect : bool;
  opt_timeout : Z
}.

(** [requestify.get(url, options)]: the request that goes out.  A
    falsy address is refused with an Error before anything is sent. *)
Definition requestify_get (url : value) (o : options) : js request :=
  if truthy url then
    inr {| method := GET; target := url;
           redirect := opt_redirect o; timeout := opt_timeout o |}
  else inl Refused.

(** [{redirect: true, timeout: 120000}], the options of every page fetch. *)
Definition page_options : options :=
  {| opt_redirect := true; opt_timeout := 120000 |}.

(** The one request a page fetch is: a GET to the address, following
    redirects, given up after 120000 ms. *)
Definition page_fetch (u : value) : request :=
  {| method := GET; target := u; redirect := true; timeout := 120000 |}.

(** What comes back for a request: a response with its body, or a failure
    (time-out, connection error, status outside 2xx). *)
Inductive fetched : Type :=
| Response (body : value)
| Failed (reason : value).

Definition upstream : Type := value -> fetched.

(** A promise as its holder sees it. *)
Inductive promise : Type :=
| Pending
| Resolved (v : value)
| Rejected (e : exn).

Inductive log_line : Type :=
| Info (msg : value)
| InfoFor (msg : value) (correlationId : string).

Definition length_of (xs : list value) : value := VNum (Z.of_nat (length xs)).

(** ** The link-following connector

    [WordpressConnector] with an instance field [results], a method [loop]
    that fetches one page and follows [_links.next[0].href], and a
    [getPages] that starts [loop] at a fixed address. *)

Module LinkedConnector.

Record WordpressConnector : Type := Connector {
  results : list value
}.

(** [constructor()]: [this.results = []] *)
Definition constructor : WordpressConnector := {| results := [] |}.

(** One call of [loop] whose request is on its way: the address asked
    for, the promise [loop] returned, and whether [getPages] has put
    its [then] callback on that promise. *)
Record call : Type := Call {
  url : value;
  returned : nat;
  watched : bool
}.

(** The connector instance together with what surrounds it: the request
    awaiting its response (one traversal runs at a time), the requests
    sent so far, the promises created so far (a promise is named by its
    position) and the lines given to the logger. *)
Record world : Type := World {
  self : WordpressConnector;
  inflight : option call;
  sent : list request;
  promises : list promise;
  log : list log_line
}.

Definition fresh (c : WordpressConnector) : world :=
  {| self := c; inflight := None; sent := []; promises := []; log := [] |}.

Definition logger_info (msg : value) (w : world) : world :=
  {| self := self w; inflight := inflight w; sent := sent w;
     promises := promises w; log := log w ++ [Info msg] |}.

Definition set_results (xs : list value) (w : world) : world :=
  {| self := {| results := xs |}; inflight := inflight w; sent := sent w;
     promises := promises w; log := log w |}.

Definition set_inflight (c : option call) (w : world) : world :=
  {| self := self w; inflight := c; sent := sent w;
     promises := promises w; log := log w |}.

Definition send (r : request) (w : world) : world :=
  {| self := self w; inflight := inflight w; sent := sent w ++ [r];
     promises := promises w; log := log w |}.

(** A new promise, pending until something settles it. *)
Definition new_promise (w : world) : nat * world :=
  (length (promises w),
   {| self := self w; inflight := inflight w; sent := sent w;
      promises := promises w ++ [Pending]; log := log w |}).

Definition set_promise (id : nat) (p : promise) (w : world) : world :=
  {| self := self w; inflight := inflight w; sent := sent w;
     promises := <[id := p]> (promises w); log := log w |}.

(** The promise [loop] returned settles; the callback of [getPages], when
    it is attached, runs on fulfilment only. *)
Definition settle (c : call) (p : promise) (w : world) : world :=
  let w := set_promise (returned c) p w in
  match p with
  | Resolved _ => if watched c then logger_info (VStr "comes back") w else w
  | _ => w
  end.

(** [a && b] *)
Definition js_and (a : js value) (b : js value) : js value :=
  let* x := a in if truthy x then b else inr x.

(** [r["_links"] && r["_links"]["next"]] *)
Definition next_test (r : value) : js value :=
  js_and (get_prop r "_links")
         (let* l := get_prop r "_links" in get_prop l "next").

(** [r["_links"]["next"][0]["href"]] *)
Definition next_href (r : value) : js value :=
  let* l := get_prop r "_links" in
  let* n := get_prop l "next" in
  let* first := get_index n 0 in
  get_prop first "href".

(** [loop(url)] up to the point where the request is out.  When
    requestify refuses the address, [Promise.try] hands back a promise
    rejected with its error, and no request is out. *)
Definition loop (u : value) (watch : bool) (w : world) : world :=
  let w := logger_info u w in
  let (id, w) := new_promise w in
  let c := {| url := u; returned := id; watched := watch |} in
  match requestify_get u page_options with
  | inr r => set_inflight (Some c) (send r w)
  | inl e => set_inflight None (settle c (Rejected e) w)
  end.

(** The [then] callback of [loop], run on the response. *)
Definition on_response (r : value) (c : call) (w : world) : world :=
  let w := set_results (concat (results (self w)) (VArr (values r))) w in
  match next_test r with
  | inl e => settle c (Rejected e) w
  | inr t =>
      if truthy t then
        match next_href r with
        | inl e => settle c (Rejected e) w
        | inr u =>
            (* [self.loop(...)] is called and its promise dropped *)
            let w := loop u false w in
            let w := logger_info (VStr "adding stuff") w in
            let w := logger_info (length_of (results (self w))) w in
            settle c (Resolved VUndefined) w
        end
      else
        let w := logger_info (VStr "finished stuff") w in
        let w := logger_info (length_of (results (self w))) w in
        settle c (Resolved (VArr (results (self w)))) w
  end.

(** The response (or the failure) of the request in flight arrives. *)
Definition step (up : upstream) (w : world) : world :=
  match inflight w with
  | None => w
  | Some c =>
      let w := set_inflight None w in
      match up (url c) with
      | Failed reason => settle c (Rejected (Raised reason)) w
      | Response r => on_response r c w
      end
  end.

Fixpoint run (up : upstream) (n : nat) (w : world) : world :=
  match n with
  | O => w
  | S n' => run up n' (step up w)
  end.

Definition seed : value :=
  VStr "http://zuidas.publikaan.nl/wp-json/wp/v2/all?page=0".

(** [getPages(correlationId)]: the promise it returns, and the world
    once [loop] has been started.  The executor calls neither [resolve]
    nor [reject]. *)
Definition getPages (correlationId : string) (w : world) : nat * world :=
  let (facade, w) := new_promise w in
  (facade, loop seed true w).

(** *** Describing a traversal *)

Definition idle (w : world) : Prop := inflight w = None.

(** The promise of the call in flight exists and is still pending. *)
Definition sound (w : world) : Prop :=
  forall c, inflight w = Some c -> promises w !! returned c = Some Pending.

(** The page has a navigation section with a next link in it. *)
Definition has_next_link (r : value) : bool :=
  match r with
  | VObj props =>
      match assoc "_links" props with
      | VObj nav => truthy (assoc "next" nav)
      | _ => false
      end
  | _ => false
  end.

(** The address the traversal goes to after the page at [u], if any: the
    [href] read off the page, when requestify takes it. *)
Definition next_of (up : upstream) (u : value) : option value :=
  match up u with
  | Response r =>
      match next_test r with
      | inr t =>
          if truthy t then
            match next_href r with
            | inr u' => if truthy u' then Some u' else None
            | inl _ => None
            end
          else None
      | inl _ => None
      end
  | Failed _ => None
  end.

(** The addresses visited from [u] on, [n] of them at most; an address
    requestify refuses is not visited. *)
Fixpoint chain (up : upstream) (n : nat) (u : value) : list value :=
  match n with
  | O => []
  | S n' =>
      if truthy u then
        u :: match next_of up u with
             | Some u' => chain up n' u'
             | None => []
             end
      else []
  end.

(** What the page at [u] contributes to the accumulator. *)
Definition items_at (up : upstream) (u : value) : list value :=
  match up u with
  | Response r => values r
  | Failed _ => []
  end.

(** What the promise of the call in flight becomes when its response is
    in. *)
Definition settles_as (up : upstream) (w : world) (c : call) : promise :=
  match up (url c) with
  | Failed reason => Rejected (Raised reason)
  | Response r =>
      match next_test r with
      | inl e => Rejected e
      | inr t =>
          if truthy t then
            match next_href r with
            | inl e => Rejected e
            | inr _ => Resolved VUndefined
            end
          else Resolved (VArr (results (self w) ++ values r))
      end
  end.

(** The traversal is over and the call that fetched the last page has
    resolved with the accumulator. *)
Definition done (c : call) (w : world) : Prop :=
  inflight w = None /\
  promises w !! returned c = Some (Resolved (VArr (results (self w)))).

(** The pages from [u] on are a finite sequence of [k] pages, each at an
    address requestify takes: each but the last names the next one, and
    the last, with a body other than [null] and [undefined], names
    none. *)
Inductive finite_from (up : upstream) : value -> nat -> Prop :=
| last_page (u r : value) :
    truthy u = true ->
    up u = Response r -> r <> VNull -> r <> VUndefined ->
    has_next_link r = false ->
    finite_from up u 1
| more_pages (u r u' : value) (k : nat) :
    truthy u = true ->
    up u = Response r -> has_next_link r = true -> next_href r = inr u' ->
    finite_from up u' k ->
    finite_from up u (S k).

End LinkedConnector.

(** ** The page-number connector

    [WordpressConnector] with the module-level variables
    [concatenatedResponse] and [items], and a [getPages(page,
    correlationId)] that asks for [?page=N] and calls itself with the next
    page number until a body is [null]. *)

Module PagedConnector.

(** [require('../config')]: the two settings [getPages] reads. *)
Record config : Type := Config {
  wordpressUrl : string;
  wordpressApiPath : string
}.

(** [let concatenatedResponse = [],items;] *)
Record module_vars : Type := Vars {
  concatenatedResponse : list value;
  items : value
}.

Definition loaded : module_vars :=
  {| concatenatedResponse := []; items := VUndefined |}.

(** One call of [getPages] whose request is on its way: its arguments
    (the page number is a Number with an integer value), the address it
    asked for and the promise it returned. *)
Record call : Type := Call {
  page : Z;
  correlationId : string;
  url : string;
  returned : nat
}.

Record world : Type := World {
  vars : module_vars;
  inflight : option call;
  sent : list request;
  promises : list promise;
  log : list log_line
}.

Definition fresh (v : module_vars) : world :=
  {| vars := v; inflight := None; sent := []; promises := []; log := [] |}.

Definition logger_info (l : log_line) (w : world) : world :=
  {| vars := vars w; inflight := inflight w; sent := sent w;
     promises := promises w; log := log w ++ [l] |}.

Definition set_items (v : value) (w : world) : world :=
  {| vars := {| concatenatedResponse := concatenatedResponse (vars w);
                items := v |};
     inflight := inflight w; sent := sent w;
     promises := promises w; log := log w |}.

Definition set_inflight (c : option call) (w : world) : world :=
  {| vars := vars w; inflight := c; sent := sent w;
     promises := promises w; log := log w |}.

Definition send (r : request) (w : world) : world :=
  {| vars := vars w; inflight := inflight w; sent := sent w ++ [r];
     promises := promises w; log := log w |}.

Definition new_promise (w : world) : nat * world :=
  (length (promises w),
   {| vars := vars w; inflight := inflight w; sent := sent w;
      promises := promises w ++ [Pending]; log := log w |}).

Definition set_promise (id : nat) (p : promise) (w : world) : world :=
  {| vars := vars w; inflight := inflight w; sent := sent w;
     promises := <[id := p]> (promises w); log := log w |}.

(** [config.wordpressUrl + '/' + config.wordpressApiPath + '?page=' + page] *)
Definition page_url (cfg : config) (p : Z) : string :=
  wordpressUrl cfg +:+ "/" +:+ wordpressApiPath cfg +:+ "?page="
  +:+ number_to_string p.

(** [getPages(page, correlationId)] up to the point where the request is
    out: the promise it returns and the world.  What the executor throws
    rejects the promise. *)
Definition getPages (cfg : config) (p : Z) (cid : string) (w : world)
  : nat * world :=
  let (id, w) := new_promise w in
  let u := page_url cfg p in
  let w := logger_info (Info (VStr u)) w in
  let w := logger_info (Info (length_of (concatenatedResponse (vars w)))) w in
  match requestify_get (VStr u) page_options with
  | inr r =>
      (id, set_inflight (Some {| page := p; correlationId := cid;
                                 url := u; returned := id |}) (send r w))
  | inl e => (id, set_inflight None (set_promise id (Rejected e) w))
  end.

(** The [then] callback of [getPages], run on the response. *)
Definition on_response (cfg : config) (body : value) (c : call) (w : world)
  : world :=
  match body with
  | VNull =>
      let n := length (concatenatedResponse (vars w)) in
      let w := logger_info
                 (InfoFor (VStr ("Received " +:+ pretty n +:+
                                 "items from wordpress"))
                          (correlationId c)) w in
      set_promise (returned c)
                  (Resolved (VArr (concatenatedResponse (vars w)))) w
  | _ =>
      let w := set_items body w in
      (* [concatenatedResponse.concat(items);] the merged array is not kept *)
      let _ := concat (concatenatedResponse (vars w)) (items (vars w)) in
      (* [page++] *)
      let p := js_incr (page c) in
      (* [self.getPages(page, correlationId)] its promise is not used *)
      snd (getPages cfg p (correlationId c) w)
  end.

(** The response (or the failure) of the request in flight arrives; a
    failure reaches [.catch] and rejects the promise of that call. *)
Definition step (cfg : config) (up : upstream) (w : world) : world :=
  match inflight w with
  | None => w
  | Some c =>
      let w := set_inflight None w in
      match up (VStr (url c)) with
      | Failed reason => set_promise (returned c) (Rejected (Raised reason)) w
      | Response body => on_response cfg body c w
      end
  end.

Fixpoint run (cfg : config) (up : upstream) (n : nat) (w : world) : world :=
  match n with
  | O => w
  | S n' => run cfg up n' (step cfg up w)
  end.

(** *** Describing a traversal *)

Definition idle (w : world) : Prop := inflight w = None.

(** The promise of the call in flight exists and is still pending. *)
Definition sound (w : world) : Prop :=
  forall c, inflight w = Some c -> promises w !! returned c = Some Pending.

(** What the promise of the call in flight becomes when its response is
    in. *)
Definition settles_as (up : upstream) (w : world) (c : call) : promise :=
  match up (VStr (url c)) with
  | Failed reason => Rejected (Raised reason)
  | Response VNull => Resolved (VArr (concatenatedResponse (vars w)))
  | Response _ => Pending
  end.

(** The page numbers asked for from [p] on, [n] of them at most: the
    traversal goes on after every body that is not [null]. *)
Fixpoint pages_from (cfg : config) (up : upstream) (n : nat) (p : Z)
  : list Z :=
  match n with
  | O => []
  | S n' =>
      p :: match up (VStr (page_url cfg p)) with
           | Failed _ | Response VNull => []
           | Response _ => pages_from cfg up n' (js_incr p)
           end
  end.

(** The traversal is over and the call that fetched the last page has
    resolved with the module-level array. *)
Definition done (c : call) (w : world) : Prop :=
  inflight w = None /\
  promises w !! returned c
    = Some (Resolved (VArr (concatenatedResponse (vars w)))).

(** The call in flight asked for the address of its page. *)
Definition addressed (cfg : config) (w : world) : Prop :=
  forall c, inflight w = Some c -> url c = page_url cfg (page c).

(** The pages from number [p] on, each number what [page++] makes of the
    one before, are a finite sequence: [k - 1] bodies other than [null],
    then the [null] body. *)
Inductive finite_from (cfg : config) (up : upstream) : Z -> nat -> Prop :=
| last_page (p : Z) :
    up (VStr (page_url cfg p)) = Response VNull ->
    finite_from cfg up p 1
| more_pages (p : Z) (body : value) (k : nat) :
    up (VStr (page_url cfg p)) = Response body -> body <> VNull ->
    finite_from cfg up (js_incr p) k ->
    finite_from cfg up p (S k).

End PagedConnector.

(** ** The Mongo page store

    [MongoStorePersistence.save], over the [page] collection of the named
    database. *)

Module MongoStorePersistence.

(** Modelled from the spec: the type [DataObject] (imported from
    [content], not part of the sources) is an item record keyed by an
    item identifier; [save] reads nothing of it but [_id]. *)
Record DataObject : Type := Data {
  _id : string;
  content : value
}.

(** The [page] collection of every database, by database name; a
    collection holds at most one document per [_id]. *)
Record mongo : Type := Mongo {
  pages : gmap string (gmap string DataObject);
  log : list string
}.

Definition collection_of (m : mongo) (dbName : string)
  : gmap string DataObject :=
  default ∅ (pages m !! dbName).

(** Which of the calls one invocation of a method makes fail, and with
    what.  Every invocation is given its own: that one went through says
    nothing about the next. *)
Record faults : Type := Faults {
  at_getCollection : option value;
  at_findOne : option value;
  at_write : option value
}.

Definition no_faults : faults :=
  {| at_getCollection := None; at_findOne := None; at_write := None |}.

(** A computation over the store that may throw. *)
Definition io (A : Type) : Type := mongo -> js A * mongo.

Definition ret {A : Type} (a : A) : io A := fun m => (inr a, m).

Definition throw {A : Type} (e : exn) : io A := fun m => (inl e, m).

Definition bind {A B : Type} (c : io A) (k : A -> io B) : io B :=
  fun m =>
    match c m with
    | (inl e, m') => (inl e, m')
    | (inr a, m') => k a m'
    end.

(** [try { c } catch (error) { h }] *)
Definition try_catch {A : Type} (c : io A) (h : exn -> io A) : io A :=
  fun m =>
    match c m with
    | (inl e, m') => h e m'
    | (inr a, m') => (inr a, m')
    end.

Notation "'do' x '<-' c ';' k" := (bind c (fun x => k))
  (at level 10, x name, c at level 100, k at level 200).

Definition failing {A : Type} (f : option value) (c : io A) : io A :=
  match f with
  | Some reason => throw (Raised reason)
  | None => c
  end.

(** Modelled from the spec: [getCollection] (from [mongo.connector], not
    part of the sources) hands out the named collection of the named
    database, here the database name itself, or fails. *)
Definition getCollection (f : faults) (dbName : string) (name : string)
  : io string :=
  failing (at_getCollection f) (ret dbName).

(** What the driver answers to a write. *)
Inductive write_result : Type :=
| Replaced (matched : nat) (upserted : nat)
| Inserted (insertedId : string).

(** The field [result] of what [save] returns: the answer of the driver,
    or [false]. *)
Inductive result_value : Type :=
| RFalse
| RWrite (r : write_result).

(** [collection.findOne({ _id: id })]: the document, or [null]. *)
Definition findOne (f : faults) (coll : string) (id : string)
  : io (option DataObject) :=
  failing (at_findOne f) (fun m => (inr (collection_of m coll !! id), m)).

Definition put (coll : string) (d : DataObject) (m : mongo) : mongo :=
  {| pages := <[coll := <[_id d := d]> (collection_of m coll)]> (pages m);
     log := log m |}.

(** [collection.replaceOne({ _id: id }, data, { upsert: true })]; the
    replacement carries the same [_id] as the filter. *)
Definition replaceOne (f : faults) (coll : string) (id : string)
  (d : DataObject) : io write_result :=
  failing (at_write f)
    (fun m =>
       match collection_of m coll !! id with
       | Some _ => (inr (Replaced 1 0), put coll d m)
       | None => (inr (Replaced 0 1), put coll d m)
       end).

(** [collection.insertOne(data)]: a second document with the same [_id]
    is refused. *)
Definition insertOne (f : faults) (coll : string) (d : DataObject)
  : io write_result :=
  failing (at_write f)
    (fun m =>
       match collection_of m coll !! _id d with
       | Some _ => (inl (Raised (VStr "E11000 duplicate key error")), m)
       | None => (inr (Inserted (_id d)), put coll d m)
       end).

Definition logger_error (line : string) : io unit :=
  fun m => (inr tt, {| pages := pages m; log := log m ++ [line] |}).

Record saved : Type := Saved {
  result : result_value;
  update : bool
}.

(** [save(data, dbName)]; what the [async] function settles with.  A
    [data] that is [null] or [undefined] makes [data._id] throw. *)
Definition save (f : faults) (data : option DataObject) (dbName : string)
  : io saved :=
  try_catch
    (do collection <- getCollection f dbName "page";
     match data with
     | None => throw TypeError
     | Some d =>
         do exists_ <- findOne f collection (_id d);
         match exists_ with
         | Some _ =>
             do r <- replaceOne f collection (_id d) d;
             ret {| result := RWrite r; update := true |}
         | None =>
             do r <- insertOne f collection d;
             ret {| result := RWrite r; update := false |}
         end
     end)
    (fun _ =>
       do _u <- logger_error "failed to save item to mongo";
       ret {| result := RFalse; update := false |}).

End MongoStorePersistence.

(** ** Sample upstreams *)

Module Samples.

Definition a : value := VStr "a".
Definition b : value := VStr "b".
Definition c : value := VStr "c".

(** A page of the link-following API: numbered items and, when there is a
    next page, the navigation section. *)
Definition linked_page (items : list value) (next : option string) : value :=
  VObj (imap (fun i v => (pretty i, v)) items ++
        match next with
        | Some u => [("_links", VObj [("next", VArr [VObj [("href", VStr u)]])])]
        | None => []
        end).

(** Two pages: the seed with [a] and [b] and a link to [p2], and [p2] with
    [c] and no link. *)
Definition two_linked_pages : upstream := fun u =>
  match u with
  | VStr "http://zuidas.publikaan.nl/wp-json/wp/v2/all?page=0" =>
      Response (linked_page [a; b] (Some "p2"))
  | VStr "p2" => Response (linked_page [c] None)
  | _ => Failed (VStr "ENOTFOUND")
  end.

(** A seed page with [a] and no link. *)
Definition one_linked_page : upstream := fun u =>
  match u with
  | VStr "http://zuidas.publikaan.nl/wp-json/wp/v2/all?page=0" =>
      Response (linked_page [a] None)
  | _ => Failed (VStr "ENOTFOUND")
  end.

(** A page whose next link is its own address. *)
Definition self_linked_page : upstream := fun u =>
  match u with
  | VStr "p1" => Response (linked_page [a] (Some "p1"))
  | _ => Failed (VStr "ENOTFOUND")
  end.


Definition cfg : PagedConnector.config :=
  {| PagedConnector.wordpressUrl := "http://wp";
     PagedConnector.wordpressApiPath := "wp-json/wp/v2/all" |}.

(** The page-number API with [a] and [b] on page 1, [c] on page 2 and the
    [null] body on page 3. *)
Definition two_numbered_pages : upstream := fun u =>
  match u with
  | VStr "http://wp/wp-json/wp/v2/all?page=1" => Response (VArr [a; b])
  | VStr "http://wp/wp-json/wp/v2/all?page=2" => Response (VArr [c])
  | VStr "http://wp/wp-json/wp/v2/all?page=3" => Response VNull
  | _ => Failed (VStr "ENOTFOUND")
  end.


(** An upstream that never answers in time. *)
Definition unreachable : upstream := fun _ => Failed (VStr "ETIMEDOUT").

Definition post : MongoStorePersistence.DataObject :=
  {| MongoStorePersistence._id := "post-1";
     MongoStorePersistence.content := VStr "draft" |}.

Definition post_edited : MongoStorePersistence.DataObject :=
  {| MongoStorePersistence._id := "post-1";
     MongoStorePersistence.content := VStr "final" |}.

Definition empty_store : MongoStorePersistence.mongo :=
  {| MongoStorePersistence.pages := ∅; MongoStorePersistence.log := [] |}.

Definition find_fails : MongoStorePersistence.faults :=
  {| MongoStorePersistence.at_getCollection := None;
     MongoStorePersistence.at_findOne := Some (VStr "connection closed");
     MongoStorePersistence.at_write := None |}.

End Samples.

(** ** The other methods of the page store

    [find], [findOne] and [remove] of [MongoStorePersistence], over the
    same store as [save], each invocation with failing calls of its
    own. *)

Module PageStore.

Import MongoStorePersistence.

(** [logger.info(line)] *)
Definition logger_info (line : string) : io unit :=
  fun m => (inr tt, {| pages := pages m; log := log m ++ [line] |}).

(** The options of [findOne]: [query] is a filter on [_id], the filter
    [save] and [remove] build themselves. *)
Record one_options : Type := OneOptions {
  one_query : string
}.

(** [findOne(options, dbName)]: nothing is caught. *)
Definition findOne (f : faults) (options : one_options) (dbName : string)
  : io (option DataObject) :=
  do collection <- getCollection f dbName "page";
  MongoStorePersistence.findOne f collection (one_query options).

(** The options of [find]: a filter, a sort order and a limit, as the
    caller wrote them ([VUndefined] for a field left out). *)
Record many_options : Type := ManyOptions {
  query : value;
  sort : value;
  limit : value
}.

(** What [collection.find(query).sort(sort).limit(limit).toArray()] yields
    on a collection; the driver decides. *)
Definition cursor : Type :=
  gmap string DataObject -> value -> value -> value -> list DataObject.

(** [find(options, dbName)]: the options object as [find] leaves it, and
    the documents.  The read fails when the driver's reads do. *)
Definition find (drv : cursor) (f : faults) (options : many_options)
  (dbName : string) : many_options * io (list DataObject) :=
  let options :=
    match limit options with
    | VUndefined =>
        {| query := query options; sort := sort options; limit := VNum 0 |}
    | _ => options
    end in
  (options,
   do collection <- getCollection f dbName "page";
   failing (at_findOne f)
     (fun m => (inr (drv (collection_of m collection) (query options)
                         (sort options) (limit options)), m))).

(** [collection.remove({"_id": id})]: the document with that [_id] goes,
    if there is one; the answer is the number of documents deleted. *)
Definition collection_remove (f : faults) (coll : string) (id : string)
  : io nat :=
  failing (at_write f)
    (fun m =>
       match collection_of m coll !! id with
       | Some _ =>
           (inr 1,
            {| pages := <[coll := delete id (collection_of m coll)]> (pages m);
               log := log m |})
       | None => (inr 0, m)
       end).

(** [remove(id, dbName)] *)
Definition remove (f : faults) (id : string) (dbName : string) : io bool :=
  try_catch
    (do collection <- getCollection f dbName "page";
     do _n <- collection_remove f collection id;
     do _u <- logger_info "removed item from mongo";
     ret true)
    (fun _ =>
       do _u <- logger_error "failed to remove item from mongo";
       ret false).

End PageStore.

(** ** The template service

    [TemplateService]: [_registerHelpers], [_registerPartials],
    [_renderTemplate], [_minifyRenderedTemplate] and [render].  What the
    modules it requires do (the helper list, Handlebars, the file system,
    the minifier) is an input; the bookkeeping of the promises and of the
    Handlebars registry is the service's own. *)

Module TemplateService.

(** An Error object, or any other object that takes a new property, by
    its own properties. *)
Definition error : Type := list (string * value).

(** A value that is no object. *)
Inductive primitive : Type :=
| PUndefined
| PNull
| PBool (b : bool)
| PNum (n : Z)
| PStr (s : string).

(** What is thrown, and what a promise is rejected with: an object or a
    primitive.  The file system and Handlebars hand out Error objects;
    a helper run by a template, or the minifier, may throw anything. *)
Inductive reason : Type :=
| Object (e : error)
| Primitive (v : primitive).

(** [error[k] = v] *)
Fixpoint set_prop (k : string) (v : value) (props : list (string * value))
  : list (string * value) :=
  match props with
  | [] => [(k, v)]
  | (k', v') :: rest =>
      if String.eqb k k' then (k, v) :: rest
      else (k', v') :: set_prop k v rest
  end.

Inductive settled : Type :=
| Fulfilled (v : value)
| Failed (e : reason).

(** A promise made with [new Promise]: [None] while it is pending. *)
Definition cell : Type := option settled.

(** [resolve(v)] and [reject(e)]: the first call settles the promise, a
    later one does nothing. *)
Definition resolve (v : value) (p : cell) : cell :=
  match p with
  | None => Some (Fulfilled v)
  | Some _ => p
  end.

Definition reject (e : reason) (p : cell) : cell :=
  match p with
  | None => Some (Failed e)
  | Some _ => p
  end.

(** An entry of [handlebarsHelpers]. *)
Record helper_entry : Type := HelperEntry {
  name : string;
  helper : value
}.

(** A registered partial: the source it was registered with, or the
    template function Handlebars has compiled from that source and put in
    its place. *)
Inductive partial : Type :=
| Source (text : string)
| Compiled (text : string).

Definition text_of (p : partial) : string :=
  match p with
  | Source text | Compiled text => text
  end.

(** The registry of the Handlebars instance the module holds. *)
Record handlebars : Type := Handlebars {
  helpers : gmap string value;
  partials : gmap string partial
}.

Record config : Type := Config {
  root : string;
  baseUrl : string;
  wordpressUrl : string
}.

Record minify_options : Type := MinifyOptions {
  removeAttributeQuotes : bool;
  removeTagWhitespace : bool;
  removeComments : bool;
  collapseWhitespace : bool
}.

(** What the required modules do: the helper list ([None] when it is
    falsy), the registrations Handlebars refuses, the directory listings
    and file contents, the minifier, and [execute]: compiling a template
    source ([None] for [undefined]) and running it on the data under a
    registry, which gives the text or what was thrown, and the registry
    as the run leaves it (Handlebars compiles the partials a template
    uses and keeps the compiled ones; helpers are code of their own). *)
Record libraries : Type := Libraries {
  handlebarsHelpers : option (list helper_entry);
  registerHelper_throws : helper_entry -> option error;
  readdir : string -> error + list string;
  readFile : string -> error + string;
  execute : handlebars -> option string -> value
            -> (reason + string) * handlebars;
  minify : value -> minify_options -> reason + string
}.

Record world : Type := World {
  registry : handlebars;
  log : list value
}.

(** The body of the [forEach] of [_registerHelpers] for one helper. *)
Definition register_one (lib : libraries) (st : cell * handlebars)
  (h : helper_entry) : cell * handlebars :=
  let (p, hb) := st in
  match registerHelper_throws lib h with
  | Some e => (reject (Object e) p, hb)
  | None =>
      (p, {| helpers := <[name h := helper h]> (helpers hb);
             partials := partials hb |})
  end.

(** [_registerHelpers(correlationId)] *)
Definition _registerHelpers (lib : libraries) (hb : handlebars)
  : cell * handlebars :=
  let (p, hb) :=
    match handlebarsHelpers lib with
    | Some hs => fold_left (register_one lib) hs (None, hb)
    | None => (None, hb)
    end in
  (resolve (VObj []) p, hb).

(** [s.split('.')[0]] *)
Fixpoint before_dot (s : string) : string :=
  match s with
  | EmptyString => EmptyString
  | String c rest =>
      if String.eqb (String c EmptyString) "." then EmptyString
      else String c (before_dot rest)
  end.

(** [config.root + '/pages/templates/_partials'] *)
Definition partials_dir (cfg : config) : string :=
  root cfg +:+ "/pages/templates/_partials".

(** The callback of [fs.readFile] for one file of the partials directory.
    After a failed read [registerPartial] is given [undefined] and
    throws (Handlebars 4), and the [reject] of the [catch] comes second. *)
Definition partial_read (lib : libraries) (cfg : config)
  (st : cell * handlebars) (filename : string) : cell * handlebars :=
  let (p, hb) := st in
  match readFile lib (partials_dir cfg +:+ "/" +:+ filename) with
  | inl e => (reject (Object e) p, hb)
  | inr source =>
      let partialName := before_dot filename in
      (resolve (VObj [])  p,
       {| helpers := helpers hb;
          partials := <[partialName := Source source]> (partials hb) |})
  end.

(** The order in which reads that were started together complete: at
    each turn the pick says which of those still running is next. *)
Fixpoint completion_order (picks : list nat) (n : nat) (running : list string)
  : list string :=
  match n with
  | O => []
  | S n' =>
      match running with
      | [] => []
      | first :: _ =>
          let k := (hd 0 picks) mod (length running) in
          nth k running first
            :: completion_order (tl picks) n' (delete k running)
      end
  end.

(** [_registerPartials(correlationId)] up to the moment its promise
    settles: the promise, the registry, and the reads that have not
    completed yet, in the order in which they will. *)
Definition _registerPartials (lib : libraries) (cfg : config)
  (picks : list nat) (hb : handlebars) : cell * handlebars * list string :=
  match readdir lib (partials_dir cfg) with
  | inl e =>
      (* [reject(error)], then [filenames] is undefined: [resolve({})] *)
      (resolve (VObj []) (reject (Object e) None), hb, [])
  | inr [] => (resolve (VObj []) None, hb, [])
  | inr filenames =>
      match completion_order picks (length filenames) filenames with
      | [] => (None, hb, [])
      | first :: later => (partial_read lib cfg (None, hb) first, later)
      end
  end.

(** The reads of partials that complete after the promise has settled. *)
Definition late_reads (lib : libraries) (cfg : config) (p : cell)
  (hb : handlebars) (files : list string) : handlebars :=
  snd (fold_left (partial_read lib cfg) files (p, hb)).

(** [{ body: data, baseUrl: config.baseUrl, wordpressUrl:
    config.wordpressUrl }] *)
Definition templateData (cfg : config) (data : value) : value :=
  VObj [("body", data); ("baseUrl", VStr (baseUrl cfg));
        ("wordpressUrl", VStr (wordpressUrl cfg))].

(** [_renderTemplate(templateName, templateFileName, data,
    correlationId)], run against the registry as it is when the read of
    the template completes: the promise, and the registry afterwards. *)
Definition _renderTemplate (lib : libraries) (cfg : config) (hb : handlebars)
  (templateName templateFileName : string) (data : value)
  : cell * handlebars :=
  let dirname := root cfg +:+ "/pages/templates" in
  let read := readFile lib (dirname +:+ "/" +:+ templateName
                            +:+ "/" +:+ templateFileName) in
  let (p, source) :=
    match read with
    | inl e => (reject (Object e) None, None)
    | inr source => (None, Some source)
    end in
  let (out, hb') := execute lib hb source (templateData cfg data) in
  (match out with
   | inr html => resolve (VStr html) p
   | inl e => reject e p
   end, hb').

(** [_minifyRenderedTemplate(html, correlationId)] *)
Definition _minifyRenderedTemplate (lib : libraries) (html : value) : cell :=
  match minify lib html
          {| removeAttributeQuotes := true; removeTagWhitespace := true;
             removeComments := true; collapseWhitespace := true |} with
  | inr html' => resolve (VStr html') None
  | inl e => reject e None
  end.

(** The [catch] of [render]: [error.correlationId = correlationId;
    reject(error)].  The file is in strict mode: on a primitive the
    assignment throws and [reject] is not reached. *)
Definition on_error (correlationId : value) (e : reason) : cell :=
  match e with
  | Object props =>
      reject (Object (set_prop "correlationId" correlationId props)) None
  | Primitive _ => None
  end.

(** [render(name, template, data, correlationId)].  Of the reads of
    partials still running when [_registerPartials] has settled, [early]
    complete before the read of the template does. *)
Definition render (lib : libraries) (cfg : config) (picks : list nat)
  (early : nat) (name_ template : string) (data correlationId : value)
  (w : world) : cell * world :=
  let logged := (log w ++ [data])%list in
  let (p1, hb1) := _registerHelpers lib (registry w) in
  match p1 with
  | None => (None, {| registry := hb1; log := logged |})
  | Some (Failed e) =>
      (on_error correlationId e, {| registry := hb1; log := logged |})
  | Some (Fulfilled _) =>
      let '(p2, hb2, later) := _registerPartials lib cfg picks hb1 in
      match p2 with
      | None => (None, {| registry := hb2; log := logged |})
      | Some (Failed e) =>
          (on_error correlationId e,
           {| registry := late_reads lib cfg p2 hb2 later; log := logged |})
      | Some (Fulfilled _) =>
          let hb3 := late_reads lib cfg p2 hb2 (take early later) in
          let (p3, hb3') := _renderTemplate lib cfg hb3 name_ template data in
          let hb4 := late_reads lib cfg p2 hb3' (drop early later) in
          let w' := {| registry := hb4; log := logged |} in
          match p3 with
          | None => (None, w')
          | Some (Failed e) => (on_error correlationId e, w')
          | Some (Fulfilled html) =>
              match _minifyRenderedTemplate lib html with
              | None => (None, w')
              | Some (Failed e) => (on_error correlationId e, w')
              | Some (Fulfilled html') => (resolve html' None, w')
              end
          end
      end
  end.

(** *** Describing file names and outcomes *)

(** The string has a dot in it. *)
Fixpoint has_dot (s : string) : bool :=
  match s with
  | EmptyString => false
  | String c rest =>
      if String.eqb (String c EmptyString) "." then true else has_dot rest
  end.

(** The path [_renderTemplate] reads. *)
Definition template_path (cfg : config) (templateName templateFileName : string)
  : string :=
  (root cfg +:+ "/pages/templates") +:+ "/" +:+ templateName
  +:+ "/" +:+ templateFileName.

(** The options [_minifyRenderedTemplate] passes. *)
Definition the_minify_options : minify_options :=
  {| removeAttributeQuotes := true; removeTagWhitespace := true;
     removeComments := true; collapseWhitespace := true |}.

End TemplateService.

(** ** More samples *)

Module MoreSamples.

Definition post : MongoStorePersistence.DataObject :=
  {| MongoStorePersistence._id := "post-7";
     MongoStorePersistence.content := VStr "hello" |}.

Definition empty_store : MongoStorePersistence.mongo :=
  {| MongoStorePersistence.pages := ∅; MongoStorePersistence.log := [] |}.

(** A page whose next link is the address itself, a plain string, where
    the connector reads a list of objects with an [href]. *)
Definition next_as_string : value :=
  VObj [("0", Samples.a); ("_links", VObj [("next", VStr "p2")])].

Definition string_linked_page : upstream := fun u =>
  match u with
  | VStr "p1" => Response next_as_string
  | _ => Failed (VStr "ENOTFOUND")
  end.

(** What Handlebars makes of a partial a template uses. *)
Definition compiled (p : TemplateService.partial) : TemplateService.partial :=
  TemplateService.Compiled (TemplateService.text_of p).

(** A template service whose libraries all succeed: one helper, two
    partial files, a renderer that hands back the source and uses the
    partial [header] on the way, and a minifier that hands back its
    input. *)
Definition plain_libraries : TemplateService.libraries :=
  {| TemplateService.handlebarsHelpers :=
       Some [ {| TemplateService.name := "upper";
                 TemplateService.helper := VStr "function" |} ];
     TemplateService.registerHelper_throws := fun _ => None;
     TemplateService.readdir :=
       fun _ => inr ["header.handlebars"; "footer.handlebars"];
     TemplateService.readFile := fun path => inr ("<" +:+ path +:+ ">");
     TemplateService.execute :=
       fun hb source _ =>
         (match source with
          | Some text => inr text
          | None =>
              inl (TemplateService.Object [("message", VStr "no source")])
          end,
          {| TemplateService.helpers := TemplateService.helpers hb;
             TemplateService.partials :=
               alter compiled "header" (TemplateService.partials hb) |});
     TemplateService.minify :=
       fun html _ =>
         match html with
         | VStr text => inr text
         | _ =>
             inl (TemplateService.Object [("message", VStr "not a string")])
         end |}.

Definition site : TemplateService.config :=
  {| TemplateService.root := "/srv";
     TemplateService.baseUrl := "http://site";
     TemplateService.wordpressUrl := "http://wp" |}.

Definition no_registrations : TemplateService.world :=
  {| TemplateService.registry :=
       {| TemplateService.helpers := ∅; TemplateService.partials := ∅ |};
     TemplateService.log := [] |}.

(** The same libraries with a Handlebars that refuses the helper
    [broken], listed between two it accepts. *)
Definition upper : TemplateService.helper_entry :=
  {| TemplateService.name := "upper"; TemplateService.helper := VStr "function" |}.

Definition broken : TemplateService.helper_entry :=
  {| TemplateService.name := "broken"; TemplateService.helper := VNull |}.

Definition lower : TemplateService.helper_entry :=
  {| TemplateService.name := "lower"; TemplateService.helper := VStr "function" |}.

Definition refusal : TemplateService.error :=
  [("message", VStr "Arg not supported with multiple helpers")].

Definition refusing_libraries : TemplateService.libraries :=
  {| TemplateService.handlebarsHelpers := Some [upper; broken; lower];
     TemplateService.registerHelper_throws :=
       fun h =>
         if String.eqb (TemplateService.name h) "broken" then Some refusal
         else None;
     TemplateService.readdir := TemplateService.readdir plain_libraries;
     TemplateService.readFile := TemplateService.readFile plain_libraries;
     TemplateService.execute := TemplateService.execute plain_libraries;
     TemplateService.minify := TemplateService.minify plain_libraries |}.


End MoreSamples.

Open Scope list_scope.

(** * Facts about the link-following connector *)

Lemma classic_nullish (r : value) :
  (r = VNull \/ r = VUndefined) \/ (r <> VNull /\ r <> VUndefined).
Proof. destruct r; (left; auto; fail) || (right; split; discriminate). Qed.

Section LinkedFacts.
Import LinkedConnector.

Ltac by_cases_of_step c r :=
  unfold on_response, loop, requestify_get; cbn;
  destruct (next_test r) as [?e|?t]; cbn;
  [|destruct (truthy _); cbn;
    [destruct (next_href r) as [?e|?u]; cbn;
     [|destruct (truthy _); cbn]|]];
  destruct (watched c); cbn; try reflexivity.

Lemma has_next_link_test (r : value) :
  r <> VNull -> r <> VUndefined ->
  exists t, next_test r = inr t /\ truthy t = has_next_link r.
Proof.
  intros Hn Hu. destruct r as [| |b|n|s|xs|props]; try congruence;
    try (eexists; split; reflexivity).
  cbn. unfold js_and. cbn.
  destruct (assoc "_links" props) as [| |b|n|s|xs|nav] eqn:E; cbn;
    try (eexists; split; reflexivity).
  - destruct b; cbn; eexists; split; reflexivity.
  - destruct (n =? 0)%Z eqn:En; cbn; rewrite ?En; cbn; eexists;
      (split; [reflexivity|]); cbn; rewrite ?En; reflexivity.
  - destruct (String.eqb s EmptyString) eqn:En; cbn; rewrite ?En; cbn; eexists;
      (split; [reflexivity|]); cbn; rewrite ?En; reflexivity.
Qed.

Lemma next_test_nullish (r : value) :
  r = VNull \/ r = VUndefined -> next_test r = inl TypeError.
Proof. intros [-> | ->]; reflexivity. Qed.

(** What [loop] leaves behind for an address requestify takes, and for
    one it refuses. *)
Lemma linked_loop_out u b w :
  truthy u = true ->
  loop u b w
  = {| self := self w;
       inflight := Some {| url := u; returned := length (promises w);
                           watched := b |};
       sent := sent w ++ [page_fetch u];
       promises := promises w ++ [Pending];
       log := log w ++ [Info u] |}.
Proof. intros H. unfold loop, requestify_get. cbn. now rewrite H. Qed.

Lemma linked_loop_refused u b w :
  truthy u = false ->
  loop u b w
  = {| self := self w;
       inflight := None;
       sent := sent w;
       promises := promises w ++ [Rejected Refused];
       log := log w ++ [Info u] |}.
Proof.
  intros H. unfold loop, requestify_get. cbn. rewrite H. cbn.
  unfold set_promise. cbn. f_equal.
  rewrite insert_app_r_alt by lia. now rewrite Nat.sub_diag.
Qed.

Lemma linked_next_of_truthy up u u' :
  next_of up u = Some u' -> truthy u' = true.
Proof.
  unfold next_of. destruct (up u) as [r|]; [|discriminate].
  destruct (next_test r) as [|t]; [discriminate|].
  destruct (truthy t); [|discriminate].
  destruct (next_href r) as [|h]; [discriminate|].
  destruct (truthy h) eqn:E; [|discriminate]. now intros [= <-].
Qed.

Lemma linked_step_results up w c :
  inflight w = Some c ->
  results (self (step up w)) = results (self w) ++ items_at up (url c).
Proof.
  intros H. unfold step, items_at. rewrite H.
  destruct (up (url c)) as [r|reason]; cbn.
  - by_cases_of_step c r.
  - now rewrite app_nil_r.
Qed.

Lemma linked_step_inflight up w c :
  inflight w = Some c ->
  inflight (step up w)
  = match next_of up (url c) with
    | Some u' => Some {| url := u'; returned := length (promises w);
                         watched := false |}
    | None => None
    end.
Proof.
  intros H. unfold step, next_of. rewrite H.
  destruct (up (url c)) as [r|reason]; cbn; [|reflexivity].
  by_cases_of_step c r.
Qed.

Lemma linked_step_sent up w c :
  inflight w = Some c ->
  sent (step up w)
  = sent w ++ match next_of up (url c) with
              | Some u' => [page_fetch u']
              | None => []
              end.
Proof.
  intros H. unfold step, next_of. rewrite H.
  destruct (up (url c)) as [r|reason]; cbn; [|now rewrite app_nil_r].
  by_cases_of_step c r; now rewrite app_nil_r.
Qed.

Lemma linked_step_idle up w : idle w -> step up w = w.
Proof. unfold idle, step. now intros ->. Qed.

Lemma linked_run_idle up n w : idle w -> run up n w = w.
Proof.
  induction n as [|n IH]; intros H; [reflexivity|].
  cbn. rewrite linked_step_idle by exact H. now apply IH.
Qed.

Lemma linked_run_results up n : forall w c,
  inflight w = Some c ->
  truthy (url c) = true ->
  results (self (run up n w))
  = results (self w) ++ flat_map (items_at up) (chain up n (url c)).
Proof.
  induction n as [|n IH]; intros w c H Ht; cbn.
  - now rewrite app_nil_r.
  - rewrite Ht.
    pose proof (linked_step_inflight up w c H) as Hi.
    pose proof (linked_step_results up w c H) as Hr.
    destruct (next_of up (url c)) as [u'|] eqn:Hn.
    + rewrite (IH _ _ Hi (linked_next_of_truthy up _ _ Hn)), Hr. cbn.
      now rewrite app_assoc.
    + rewrite linked_run_idle by exact Hi. rewrite Hr. cbn. now rewrite app_nil_r.
Qed.

Lemma linked_run_sent up n : forall w c,
  inflight w = Some c ->
  truthy (url c) = true ->
  sent (run up n w)
  = sent w ++ map page_fetch (tail (chain up (S n) (url c))).
Proof.
  induction n as [|n IH]; intros w c H Ht.
  - cbn. rewrite Ht. destruct (next_of up (url c)); now rewrite app_nil_r.
  - change (run up (S n) w) with (run up n (step up w)).
    pose proof (linked_step_inflight up w c H) as Hi.
    pose proof (linked_step_sent up w c H) as Hs.
    assert (Htail : tail (chain up (S (S n)) (url c))
                    = match next_of up (url c) with
                      | Some u' => chain up (S n) u'
                      | None => []
                      end).
    { cbn [chain]. rewrite Ht. reflexivity. }
    rewrite Htail.
    destruct (next_of up (url c)) as [u'|] eqn:Hn.
    + pose proof (linked_next_of_truthy up _ _ Hn) as Ht'.
      rewrite (IH _ _ Hi Ht'), Hs. cbn [chain tail url]. rewrite Ht'. cbn.
      now rewrite <- app_assoc.
    + rewrite linked_run_idle by exact Hi. exact Hs.
Qed.

Lemma linked_step_promise up w c :
  sound w -> inflight w = Some c ->
  promises (step up w) !! returned c = Some (settles_as up w c).
Proof.
  intros Hs H. specialize (Hs c H). apply lookup_lt_Some in Hs.
  unfold step, settles_as. rewrite H.
  destruct (up (url c)) as [r|reason]; cbn.
  - by_cases_of_step c r; cbn;
      apply list_lookup_insert_eq;
      rewrite ?length_insert, ?length_app; cbn; lia.
  - apply list_lookup_insert_eq. exact Hs.
Qed.

Lemma linked_step_other_promise up w c i :
  inflight w = Some c -> i <> returned c -> i < length (promises w) ->
  promises (step up w) !! i = promises w !! i.
Proof.
  intros H Hne Hlt. unfold step. rewrite H.
  destruct (up (url c)) as [r|reason]; cbn.
  - by_cases_of_step c r; cbn;
      rewrite list_lookup_insert_ne by congruence; try reflexivity;
      rewrite ?list_lookup_insert_ne by lia;
      now rewrite lookup_app_l.
  - now rewrite list_lookup_insert_ne by congruence.
Qed.

Lemma linked_step_promises_length up w :
  length (promises w) <= length (promises (step up w)).
Proof.
  unfold step. destruct (inflight w) as [c|]; [|lia].
  destruct (up (url c)) as [r|reason]; cbn.
  - by_cases_of_step c r; cbn; rewrite ?length_insert, ?length_app; cbn; lia.
  - rewrite length_insert. lia.
Qed.

Lemma linked_step_sound up w : sound w -> sound (step up w).
Proof.
  intros Hs c' H'. destruct (inflight w) as [c|] eqn:H.
  - pose proof (Hs c H) as Hp. apply lookup_lt_Some in Hp.
    rewrite (linked_step_inflight up w c H) in H'.
    destruct (next_of up (url c)) as [u'|] eqn:Hn; [|discriminate].
    injection H' as <-. cbn.
    unfold step, next_of in *. rewrite H.
    destruct (up (url c)) as [r|reason]; [|discriminate]. cbn.
    revert Hn. by_cases_of_step c r; intros; try discriminate; cbn;
      (rewrite list_lookup_insert_ne by lia);
      now rewrite lookup_app_r, Nat.sub_diag by lia.
  - rewrite linked_step_idle in H' by exact H. congruence.
Qed.

Lemma linked_run_sound up n : forall w, sound w -> sound (run up n w).
Proof.
  induction n as [|n IH]; intros w H; [exact H|].
  cbn. apply IH. now apply linked_step_sound.
Qed.

Lemma linked_loop_sound u b w : sound (loop u b w).
Proof.
  intros c H. destruct (truthy u) eqn:Ht.
  - rewrite linked_loop_out in * by exact Ht. cbn in *. injection H as <-. cbn.
    now rewrite lookup_app_r, Nat.sub_diag by lia.
  - rewrite linked_loop_refused in H by exact Ht. discriminate.
Qed.

End LinkedFacts.

Lemma linked_loop_inflight u b w :
  truthy u = true ->
  LinkedConnector.inflight (LinkedConnector.loop u b w)
  = Some {| LinkedConnector.url := u;
            LinkedConnector.returned := length (LinkedConnector.promises w);
            LinkedConnector.watched := b |}.
Proof. intros H. now rewrite linked_loop_out. Qed.

Lemma linked_loop_promise up u b w :
  truthy u = true ->
  LinkedConnector.promises (LinkedConnector.step up (LinkedConnector.loop u b w))
    !! length (LinkedConnector.promises w)
  = Some (LinkedConnector.settles_as up (LinkedConnector.loop u b w)
            {| LinkedConnector.url := u;
               LinkedConnector.returned := length (LinkedConnector.promises w);
               LinkedConnector.watched := b |}).
Proof.
  intros H.
  exact (linked_step_promise up _
           {| LinkedConnector.url := u;
              LinkedConnector.returned := length (LinkedConnector.promises w);
              LinkedConnector.watched := b |}
           (linked_loop_sound u b w) (linked_loop_inflight u b w H)).
Qed.

Lemma linked_promise_untouched up i : forall n w,
  i < length (LinkedConnector.promises w) ->
  (forall c, LinkedConnector.inflight w = Some c -> i < LinkedConnector.returned c) ->
  LinkedConnector.promises (LinkedConnector.run up n w) !! i
  = LinkedConnector.promises w !! i.
Proof.
  induction n as [|n IH]; intros w Hlt Hin; [reflexivity|].
  cbn. destruct (LinkedConnector.inflight w) as [c|] eqn:H.
  - rewrite IH.
    + apply (linked_step_other_promise up w c i H); [|exact Hlt].
      specialize (Hin c eq_refl). lia.
    + pose proof (linked_step_promises_length up w). lia.
    + intros c' H'. rewrite (linked_step_inflight up w c H) in H'.
      destruct (LinkedConnector.next_of up (LinkedConnector.url c));
        [|discriminate].
      injection H' as <-. exact Hlt.
  - rewrite linked_step_idle by exact H. apply IH; [exact Hlt|].
    intros c H'. congruence.
Qed.

(** The promise [getPages] hands to its caller is pending after any
    number of responses. *)
Lemma linked_getPages_stays_pending up cid w n :
  LinkedConnector.promises
    (LinkedConnector.run up n (snd (LinkedConnector.getPages cid w)))
    !! fst (LinkedConnector.getPages cid w)
  = Some Pending.
Proof.
  rewrite linked_promise_untouched.
  - cbn. rewrite lookup_app_l by (rewrite length_app; cbn; lia).
    now rewrite lookup_app_r, Nat.sub_diag by lia.
  - cbn. rewrite !length_app. cbn. lia.
  - intros c H. cbn in H. injection H as <-. cbn. rewrite length_app. cbn. lia.
Qed.

Lemma linked_next_of_link up u r u' :
  up u = Response r ->
  LinkedConnector.has_next_link r = true ->
  LinkedConnector.next_href r = inr u' ->
  truthy u' = true ->
  LinkedConnector.next_of up u = Some u'.
Proof.
  intros Hr Hl Hh Ht. unfold LinkedConnector.next_of. rewrite Hr.
  destruct (has_next_link_test r) as (t & Ht' & Htt);
    [intros ->; discriminate | intros ->; discriminate |].
  rewrite Ht', Htt, Hl, Hh, Ht. reflexivity.
Qed.

Lemma linked_settles_as_follow up w c u' :
  LinkedConnector.next_of up (LinkedConnector.url c) = Some u' ->
  LinkedConnector.settles_as up w c = Resolved VUndefined.
Proof.
  unfold LinkedConnector.next_of, LinkedConnector.settles_as.
  destruct (up (LinkedConnector.url c)) as [r|reason]; [|discriminate].
  destruct (LinkedConnector.next_test r) as [e|t]; [discriminate|].
  destruct (truthy t); [|discriminate].
  destruct (LinkedConnector.next_href r); [discriminate|reflexivity].
Qed.

Lemma linked_chain_self up u :
  LinkedConnector.next_of up u = Some u ->
  forall n, LinkedConnector.chain up n u = repeat u n.
Proof.
  intros H. pose proof (linked_next_of_truthy up u u H) as Ht.
  induction n as [|n IH]; [reflexivity|].
  cbn. now rewrite Ht, H, IH.
Qed.

Lemma linked_step_promises_follow up w c u' :
  LinkedConnector.inflight w = Some c ->
  LinkedConnector.next_of up (LinkedConnector.url c) = Some u' ->
  LinkedConnector.promises (LinkedConnector.step up w)
  = <[LinkedConnector.returned c := Resolved VUndefined]>
      (LinkedConnector.promises w ++ [Pending]).
Proof.
  intros H. unfold LinkedConnector.step, LinkedConnector.next_of. rewrite H.
  destruct (up (LinkedConnector.url c)) as [r|reason]; [|discriminate]. cbn.
  unfold LinkedConnector.on_response, LinkedConnector.loop, requestify_get; cbn.
  destruct (LinkedConnector.next_test r) as [e|t]; [discriminate|]. cbn.
  destruct (truthy t); [|discriminate]. cbn.
  destruct (LinkedConnector.next_href r) as [|h]; [discriminate|]. cbn.
  destruct (truthy h); [|discriminate]. cbn.
  destruct (LinkedConnector.watched c); reflexivity.
Qed.

Lemma linked_run_promises_self up u :
  LinkedConnector.next_of up u = Some u ->
  forall n w c ps,
    LinkedConnector.inflight w = Some c ->
    LinkedConnector.url c = u ->
    LinkedConnector.promises w = ps ++ [Pending] ->
    LinkedConnector.returned c = length ps ->
    LinkedConnector.promises (LinkedConnector.run up n w)
    = ps ++ repeat (Resolved VUndefined) n ++ [Pending].
Proof.
  intros Hn. induction n as [|n IH]; intros w c ps H Hu Hp Hr; [exact Hp|].
  change (LinkedConnector.run up (S n) w)
    with (LinkedConnector.run up n (LinkedConnector.step up w)).
  pose proof (linked_step_inflight up w c H) as Hi.
  pose proof (linked_step_promises_follow up w c u H) as Hs.
  rewrite Hu, Hn in Hi, Hs. specialize (Hs eq_refl).
  rewrite (IH _ _ (ps ++ [Resolved VUndefined]) Hi eq_refl).
  - cbn. now rewrite <- app_assoc.
  - rewrite Hs, Hp, Hr.
    rewrite <- app_assoc. rewrite insert_app_r_alt by lia.
    rewrite Nat.sub_diag. cbn. now rewrite <- app_assoc.
  - cbn. rewrite Hp, !length_app. reflexivity.
Qed.

Lemma linked_done_iff up w c :
  LinkedConnector.sound w ->
  LinkedConnector.inflight w = Some c ->
  (LinkedConnector.done c (LinkedConnector.step up w) <->
   exists r, up (LinkedConnector.url c) = Response r /\
             r <> VNull /\ r <> VUndefined /\
             LinkedConnector.has_next_link r = false).
Proof.
  intros Hs H. unfold LinkedConnector.done.
  rewrite (linked_step_promise up w c Hs H),
          (linked_step_inflight up w c H),
          (linked_step_results up w c H).
  unfold LinkedConnector.settles_as, LinkedConnector.next_of,
         LinkedConnector.items_at.
  destruct (up (LinkedConnector.url c)) as [r|reason].
  + destruct (classic_nullish r) as [Hnull|[Hn Hu]].
    * rewrite (next_test_nullish r Hnull). split.
      -- intros [_ Hp]. discriminate.
      -- intros (r' & Hr' & Hn' & Hu' & _). injection Hr' as <-.
         destruct Hnull; contradiction.
    * destruct (has_next_link_test r Hn Hu) as (t & Ht & Htt).
      rewrite Ht, Htt.
      destruct (LinkedConnector.has_next_link r) eqn:Hl.
      -- split.
         ++ destruct (LinkedConnector.next_href r); intros [Hq Hp]; discriminate.
         ++ intros (r' & Hr' & _ & _ & Hl'). injection Hr' as <-. congruence.
      -- split; [|intros _; split; reflexivity].
         intros _. exists r. auto.
  + split.
    * intros [_ Hp]. discriminate.
    * intros (r' & Hr' & _). discriminate.
Qed.

Lemma linked_finite_positive up u k :
  LinkedConnector.finite_from up u k -> 1 <= k.
Proof. destruct 1; lia. Qed.

Lemma linked_finite_truthy up u k :
  LinkedConnector.finite_from up u k -> truthy u = true.
Proof. destruct 1; assumption. Qed.

Lemma linked_finite_terminates up u k :
  LinkedConnector.finite_from up u k ->
  forall w c,
    LinkedConnector.sound w ->
    LinkedConnector.inflight w = Some c ->
    LinkedConnector.url c = u ->
    (forall j, j < k ->
       LinkedConnector.inflight (LinkedConnector.run up j w) <> None) /\
    exists c',
      LinkedConnector.inflight (LinkedConnector.run up (k - 1) w) = Some c' /\
      LinkedConnector.done c' (LinkedConnector.run up k w).
Proof.
  induction 1 as [u r Ht Hr Hn Hu Hl | u r u' k Ht Hr Hl Hh Hfin IH];
    intros w c Hs H Huc; subst u.
  - split.
    + intros j Hj. assert (j = 0) as -> by lia. cbn. congruence.
    + exists c. split; [exact H|]. cbn. apply linked_done_iff; eauto.
  - pose proof (linked_finite_positive _ _ _ Hfin) as Hk.
    pose proof (linked_finite_truthy _ _ _ Hfin) as Ht'.
    pose proof (linked_next_of_link up _ r u' Hr Hl Hh Ht') as Hnext.
    pose proof (linked_step_inflight up w c H) as Hi. rewrite Hnext in Hi.
    destruct (IH _ _ (linked_step_sound up w Hs) Hi eq_refl)
      as (Hbusy & c' & Hc' & Hdone).
    split.
    + intros [|j] Hj; cbn; [congruence|]. apply Hbusy. lia.
    + exists c'. split; [|exact Hdone].
      replace (S k - 1) with (S (k - 1)) by lia. exact Hc'.
Qed.

Lemma linked_loop_results u b w :
  LinkedConnector.results (LinkedConnector.self (LinkedConnector.loop u b w))
  = LinkedConnector.results (LinkedConnector.self w).
Proof.
  destruct (truthy u) eqn:Ht.
  - now rewrite linked_loop_out.
  - now rewrite linked_loop_refused.
Qed.

Lemma linked_loop_promises_length u b w :
  length (LinkedConnector.promises (LinkedConnector.loop u b w))
  = S (length (LinkedConnector.promises w)).
Proof.
  destruct (truthy u) eqn:Ht.
  - rewrite linked_loop_out by exact Ht. cbn. rewrite length_app. cbn. lia.
  - rewrite linked_loop_refused by exact Ht. cbn. rewrite length_app. cbn. lia.
Qed.

Lemma linked_chain_refused up n u :
  truthy u = false -> LinkedConnector.chain up n u = [].
Proof. intros H. destruct n; cbn; [|rewrite H]; reflexivity. Qed.

(** The accumulator and the requests of a traversal started by [loop]. *)
Lemma linked_run_loop_results up n u b w :
  LinkedConnector.results
    (LinkedConnector.self (LinkedConnector.run up n (LinkedConnector.loop u b w)))
  = LinkedConnector.results (LinkedConnector.self w)
    ++ flat_map (LinkedConnector.items_at up) (LinkedConnector.chain up n u).
Proof.
  destruct (truthy u) eqn:Ht.
  - rewrite (linked_run_results up n _ _ (linked_loop_inflight u b w Ht) Ht).
    now rewrite linked_loop_results.
  - rewrite linked_run_idle by (now rewrite linked_loop_refused).
    rewrite linked_loop_results, linked_chain_refused by exact Ht.
    now rewrite app_nil_r.
Qed.

Lemma linked_run_loop_sent up n u b w :
  LinkedConnector.sent (LinkedConnector.run up n (LinkedConnector.loop u b w))
  = LinkedConnector.sent w
    ++ map page_fetch (LinkedConnector.chain up (S n) u).
Proof.
  destruct (truthy u) eqn:Ht.
  - rewrite (linked_run_sent up n _ _ (linked_loop_inflight u b w Ht) Ht).
    rewrite linked_loop_out by exact Ht. cbn. rewrite Ht. cbn.
    now rewrite <- app_assoc.
  - rewrite linked_run_idle by (now rewrite linked_loop_refused).
    rewrite linked_chain_refused by exact Ht.
    rewrite linked_loop_refused by exact Ht. cbn. now rewrite app_nil_r.
Qed.

(** * Facts about the page-number connector *)

Lemma page_url_truthy cfg p :
  truthy (VStr (PagedConnector.page_url cfg p)) = true.
Proof.
  unfold PagedConnector.page_url. cbn.
  destruct (PagedConnector.wordpressUrl cfg); reflexivity.
Qed.

Section PagedFacts.
Import PagedConnector.

(** What [getPages] leaves behind. *)
Lemma paged_getPages_out cfg p cid w :
  getPages cfg p cid w
  = (length (promises w),
     {| vars := vars w;
        inflight := Some {| page := p; correlationId := cid;
                            url := page_url cfg p;
                            returned := length (promises w) |};
        sent := sent w ++ [page_fetch (VStr (page_url cfg p))];
        promises := promises w ++ [Pending];
        log := (log w ++ [Info (VStr (page_url cfg p))])
               ++ [Info (length_of (concatenatedResponse (vars w)))] |}).
Proof.
  unfold getPages, requestify_get. cbn [new_promise].
  rewrite page_url_truthy. reflexivity.
Qed.

Lemma paged_on_response_next cfg body c w :
  body <> VNull ->
  on_response cfg body c w
  = snd (getPages cfg (js_incr (page c)) (correlationId c) (set_items body w)).
Proof. intros H. destruct body; congruence || reflexivity. Qed.

Ltac by_cases_of_body body :=
  destruct body; cbn [on_response]; rewrite ?paged_getPages_out; cbn.

Lemma paged_step_vars cfg up w :
  concatenatedResponse (vars (step cfg up w)) = concatenatedResponse (vars w).
Proof.
  unfold step. destruct (inflight w) as [c|]; [|reflexivity].
  destruct (up (VStr (url c))) as [body|reason]; [|reflexivity].
  by_cases_of_body body; reflexivity.
Qed.

Lemma paged_run_vars cfg up n : forall w,
  concatenatedResponse (vars (run cfg up n w)) = concatenatedResponse (vars w).
Proof.
  induction n as [|n IH]; intros w; [reflexivity|].
  cbn. now rewrite IH, paged_step_vars.
Qed.

Lemma paged_getPages_vars cfg p cid w :
  vars (snd (getPages cfg p cid w)) = vars w.
Proof. now rewrite paged_getPages_out. Qed.

Lemma paged_step_inflight cfg up w c :
  inflight w = Some c ->
  inflight (step cfg up w)
  = match up (VStr (url c)) with
    | Failed _ | Response VNull => None
    | Response _ =>
        Some {| page := js_incr (page c); correlationId := correlationId c;
                url := page_url cfg (js_incr (page c));
                returned := length (promises w) |}
    end.
Proof.
  intros H. unfold step. rewrite H.
  destruct (up (VStr (url c))) as [body|reason]; [|reflexivity].
  by_cases_of_body body; reflexivity.
Qed.

Lemma paged_step_sent cfg up w c :
  inflight w = Some c ->
  sent (step cfg up w)
  = sent w ++ match up (VStr (url c)) with
              | Failed _ | Response VNull => []
              | Response _ =>
                  [page_fetch (VStr (page_url cfg (js_incr (page c))))]
              end.
Proof.
  intros H. unfold step. rewrite H.
  destruct (up (VStr (url c))) as [body|reason]; [|now rewrite app_nil_r].
  by_cases_of_body body; reflexivity || now rewrite app_nil_r.
Qed.

Lemma paged_step_promise cfg up w c :
  sound w -> inflight w = Some c ->
  promises (step cfg up w) !! returned c = Some (settles_as up w c).
Proof.
  intros Hs H. specialize (Hs c H). pose proof (lookup_lt_Some _ _ _ Hs) as Hlt.
  unfold step, settles_as. rewrite H.
  destruct (up (VStr (url c))) as [body|reason]; cbn.
  - by_cases_of_body body; try (now rewrite lookup_app_l);
      now apply list_lookup_insert_eq.
  - now apply list_lookup_insert_eq.
Qed.

Lemma paged_step_idle cfg up w : idle w -> step cfg up w = w.
Proof. unfold idle, step. now intros ->. Qed.

Lemma paged_run_idle cfg up n w : idle w -> run cfg up n w = w.
Proof.
  induction n as [|n IH]; intros H; [reflexivity|].
  cbn. rewrite paged_step_idle by exact H. now apply IH.
Qed.

Lemma paged_getPages_sound cfg p cid w : sound (snd (getPages cfg p cid w)).
Proof.
  rewrite paged_getPages_out.
  intros c H. cbn in H. injection H as <-. cbn.
  now rewrite lookup_app_r, Nat.sub_diag by lia.
Qed.

End PagedFacts.

Lemma paged_getPages_inflight cfg p cid w :
  PagedConnector.inflight (snd (PagedConnector.getPages cfg p cid w))
  = Some {| PagedConnector.page := p;
            PagedConnector.correlationId := cid;
            PagedConnector.url := PagedConnector.page_url cfg p;
            PagedConnector.returned := length (PagedConnector.promises w) |}.
Proof. now rewrite paged_getPages_out. Qed.

Lemma paged_getPages_fst cfg p cid w :
  fst (PagedConnector.getPages cfg p cid w) = length (PagedConnector.promises w).
Proof. now rewrite paged_getPages_out. Qed.

Lemma paged_getPages_promise cfg up p cid w :
  PagedConnector.promises
    (PagedConnector.step cfg up (snd (PagedConnector.getPages cfg p cid w)))
    !! fst (PagedConnector.getPages cfg p cid w)
  = Some (PagedConnector.settles_as up w
            {| PagedConnector.page := p;
               PagedConnector.correlationId := cid;
               PagedConnector.url := PagedConnector.page_url cfg p;
               PagedConnector.returned := length (PagedConnector.promises w) |}).
Proof.
  rewrite paged_getPages_fst.
  pose proof (paged_step_promise cfg up _ _
                (paged_getPages_sound cfg p cid w)
                (paged_getPages_inflight cfg p cid w)) as Hp.
  cbn [PagedConnector.returned] in Hp. rewrite Hp.
  unfold PagedConnector.settles_as. now rewrite paged_getPages_vars.
Qed.

Lemma paged_step_other_promise cfg up w c i :
  PagedConnector.inflight w = Some c ->
  i <> PagedConnector.returned c ->
  i < length (PagedConnector.promises w) ->
  PagedConnector.promises (PagedConnector.step cfg up w) !! i
  = PagedConnector.promises w !! i.
Proof.
  intros H Hne Hlt. unfold PagedConnector.step. rewrite H.
  destruct (up (VStr (PagedConnector.url c))) as [body|reason]; cbn.
  - destruct body; cbn [PagedConnector.on_response];
      rewrite ?paged_getPages_out; cbn; try (now rewrite lookup_app_l);
      now rewrite list_lookup_insert_ne by congruence.
  - now rewrite list_lookup_insert_ne by congruence.
Qed.

Lemma paged_step_promises_length cfg up w :
  length (PagedConnector.promises w)
  <= length (PagedConnector.promises (PagedConnector.step cfg up w)).
Proof.
  unfold PagedConnector.step.
  destruct (PagedConnector.inflight w) as [c|]; [|lia].
  destruct (up (VStr (PagedConnector.url c))) as [body|reason]; cbn.
  - destruct body; cbn [PagedConnector.on_response];
      rewrite ?paged_getPages_out; cbn;
      rewrite ?length_insert, ?length_app; cbn; lia.
  - rewrite length_insert. lia.
Qed.

Lemma paged_promise_untouched cfg up i : forall n w,
  i < length (PagedConnector.promises w) ->
  (forall c, PagedConnector.inflight w = Some c -> i < PagedConnector.returned c) ->
  PagedConnector.promises (PagedConnector.run cfg up n w) !! i
  = PagedConnector.promises w !! i.
Proof.
  induction n as [|n IH]; intros w Hlt Hin; [reflexivity|].
  cbn. destruct (PagedConnector.inflight w) as [c|] eqn:H.
  - rewrite IH.
    + apply (paged_step_other_promise cfg up w c i H); [|exact Hlt].
      specialize (Hin c eq_refl). lia.
    + pose proof (paged_step_promises_length cfg up w). lia.
    + intros c' H'. rewrite (paged_step_inflight cfg up w c H) in H'.
      destruct (up (VStr (PagedConnector.url c))) as [body|reason];
        [|discriminate].
      destruct body; try discriminate; injection H' as <-; exact Hlt.
  - rewrite paged_step_idle by exact H. apply IH; [exact Hlt|].
    intros c H'. congruence.
Qed.

(** When the first page comes back with a body other than [null], the
    promise [getPages] handed to its caller is pending after any number
    of responses. *)
Lemma paged_getPages_stays_pending cfg up p cid w body n :
  up (VStr (PagedConnector.page_url cfg p)) = Response body ->
  body <> VNull ->
  PagedConnector.promises
    (PagedConnector.run cfg up n (snd (PagedConnector.getPages cfg p cid w)))
    !! fst (PagedConnector.getPages cfg p cid w)
  = Some Pending.
Proof.
  intros Hr Hb. destruct n as [|n].
  - rewrite paged_getPages_out. cbn.
    now rewrite lookup_app_r, Nat.sub_diag by lia.
  - change (PagedConnector.run cfg up (S n) ?w)
      with (PagedConnector.run cfg up n (PagedConnector.step cfg up w)).
    pose (c := {| PagedConnector.page := p;
                  PagedConnector.correlationId := cid;
                  PagedConnector.url := PagedConnector.page_url cfg p;
                  PagedConnector.returned := length (PagedConnector.promises w) |}).
    pose proof (paged_getPages_promise cfg up p cid w) as Hp.
    unfold PagedConnector.settles_as in Hp. cbn [PagedConnector.url] in Hp.
    rewrite Hr in Hp.
    assert (Hp' : PagedConnector.promises
                    (PagedConnector.step cfg up
                       (snd (PagedConnector.getPages cfg p cid w)))
                    !! fst (PagedConnector.getPages cfg p cid w) = Some Pending)
      by (destruct body; congruence).
    rewrite paged_promise_untouched; [exact Hp'| |].
    + apply lookup_lt_Some in Hp'. exact Hp'.
    + intros c' H'.
      rewrite (paged_step_inflight cfg up
                 (snd (PagedConnector.getPages cfg p cid w)) c
                 (paged_getPages_inflight cfg p cid w)) in H'.
      cbn [PagedConnector.url c] in H'. rewrite Hr in H'.
      rewrite paged_getPages_out in *. cbn in *.
      destruct body; try congruence; injection H' as <-; cbn;
        rewrite length_app; cbn; lia.
Qed.

Lemma paged_run_sent cfg up n : forall w c,
  PagedConnector.inflight w = Some c ->
  PagedConnector.url c = PagedConnector.page_url cfg (PagedConnector.page c) ->
  PagedConnector.sent (PagedConnector.run cfg up n w)
  = PagedConnector.sent w
    ++ map (fun p => page_fetch (VStr (PagedConnector.page_url cfg p)))
           (tail (PagedConnector.pages_from cfg up (S n) (PagedConnector.page c))).
Proof.
  induction n as [|n IH]; intros w c H Hu.
  - cbn. destruct (up _) as [[]|]; now rewrite app_nil_r.
  - change (PagedConnector.run cfg up (S n) w)
      with (PagedConnector.run cfg up n (PagedConnector.step cfg up w)).
    pose proof (paged_step_inflight cfg up w c H) as Hi.
    pose proof (paged_step_sent cfg up w c H) as Hs.
    change (tail (PagedConnector.pages_from cfg up (S (S n)) (PagedConnector.page c)))
      with (match up (VStr (PagedConnector.page_url cfg (PagedConnector.page c))) with
            | Failed _ | Response VNull => []
            | Response _ =>
                PagedConnector.pages_from cfg up (S n)
                  (js_incr (PagedConnector.page c))
            end).
    rewrite Hu in Hi, Hs.
    destruct (up (VStr (PagedConnector.page_url cfg (PagedConnector.page c))))
      as [body|reason].
    + destruct body;
        try (rewrite (IH _ _ Hi eq_refl), Hs; cbn; now rewrite <- app_assoc).
      rewrite paged_run_idle by exact Hi. exact Hs.
    + rewrite paged_run_idle by exact Hi. exact Hs.
Qed.

Lemma paged_step_sound cfg up w :
  PagedConnector.sound w -> PagedConnector.sound (PagedConnector.step cfg up w).
Proof.
  intros Hs c' H'. destruct (PagedConnector.inflight w) as [c|] eqn:H.
  - pose proof (Hs c H) as Hp. apply lookup_lt_Some in Hp.
    rewrite (paged_step_inflight cfg up w c H) in H'.
    unfold PagedConnector.step. rewrite H.
    destruct (up (VStr (PagedConnector.url c))) as [body|reason];
      [|discriminate].
    destruct body; try discriminate; injection H' as <-;
      cbn [PagedConnector.on_response]; rewrite paged_getPages_out; cbn;
      now rewrite lookup_app_r, Nat.sub_diag by lia.
  - rewrite paged_step_idle in H' by exact H. congruence.
Qed.

Lemma paged_step_addressed cfg up w :
  PagedConnector.addressed cfg (PagedConnector.step cfg up w).
Proof.
  intros c' H'. destruct (PagedConnector.inflight w) as [c|] eqn:H.
  - rewrite (paged_step_inflight cfg up w c H) in H'.
    destruct (up (VStr (PagedConnector.url c))) as [body|reason];
      [|discriminate].
    destruct body; try discriminate; now injection H' as <-.
  - rewrite paged_step_idle in H' by exact H. congruence.
Qed.

Lemma paged_done_iff cfg up w c :
  PagedConnector.sound w ->
  PagedConnector.inflight w = Some c ->
  (PagedConnector.done c (PagedConnector.step cfg up w) <->
   up (VStr (PagedConnector.url c)) = Response VNull).
Proof.
  intros Hs H. unfold PagedConnector.done.
  rewrite (paged_step_promise cfg up w c Hs H),
          (paged_step_inflight cfg up w c H), paged_step_vars.
  unfold PagedConnector.settles_as.
  destruct (up (VStr (PagedConnector.url c))) as [body|reason].
  + destruct body; split; try (intros [Hq Hp]; discriminate);
      try discriminate; auto.
  + split; [intros [_ Hp]|]; discriminate.
Qed.

Lemma paged_finite_positive cfg up p k :
  PagedConnector.finite_from cfg up p k -> 1 <= k.
Proof. destruct 1; lia. Qed.

Lemma paged_finite_terminates cfg up p k :
  PagedConnector.finite_from cfg up p k ->
  forall w c,
    PagedConnector.sound w ->
    PagedConnector.inflight w = Some c ->
    PagedConnector.page c = p ->
    PagedConnector.url c = PagedConnector.page_url cfg p ->
    (forall j, j < k ->
       PagedConnector.inflight (PagedConnector.run cfg up j w) <> None) /\
    exists c',
      PagedConnector.inflight (PagedConnector.run cfg up (k - 1) w) = Some c' /\
      PagedConnector.done c' (PagedConnector.run cfg up k w).
Proof.
  induction 1 as [p Hr | p body k Hr Hb Hfin IH];
    intros w c Hs H Hp Hu; subst p.
  - split.
    + intros j Hj. assert (j = 0) as -> by lia. cbn. congruence.
    + exists c. split; [exact H|]. cbn. apply paged_done_iff; auto.
      now rewrite Hu.
  - pose proof (paged_finite_positive _ _ _ _ Hfin) as Hk.
    pose proof (paged_step_inflight cfg up w c H) as Hi. rewrite Hu, Hr in Hi.
    assert (Hi' : PagedConnector.inflight (PagedConnector.step cfg up w)
                  = Some {| PagedConnector.page := js_incr (PagedConnector.page c);
                            PagedConnector.correlationId := PagedConnector.correlationId c;
                            PagedConnector.url :=
                              PagedConnector.page_url cfg
                                (js_incr (PagedConnector.page c));
                            PagedConnector.returned :=
                              length (PagedConnector.promises w) |}).
    { destruct body; congruence. }
    destruct (IH _ _ (paged_step_sound cfg up w Hs) Hi' eq_refl eq_refl)
      as (Hbusy & c' & Hc' & Hdone).
    split.
    + intros [|j] Hj; cbn; [congruence|]. apply Hbusy. lia.
    + exists c'. split; [|exact Hdone].
      replace (S k - 1) with (S (k - 1)) by lia. exact Hc'.
Qed.

(** * The traversal claims *)

(** C1 (the code departs from the claim).  On a page-number API that
    serves [a, b], then [c], then the [null] body, every merge is computed
    and dropped: three pages are fetched, the module-level array is still
    empty when the traversal is over, the promise handed to the caller
    never settles, and the one promise that resolves (the third call's,
    which nobody holds) resolves with the empty array, where the claim
    asks for [a, b, c].  On the link-following API with the same items the
    merge is stored back, but the promise of the traversal resolves with
    [undefined] after the first page, and the navigation section of that
    page sits among the items. *)
Theorem C1_merged_pages_are_dropped :
  (let w := PagedConnector.run Samples.cfg Samples.two_numbered_pages 3
              (snd (PagedConnector.getPages Samples.cfg 1 "cid"
                      (PagedConnector.fresh PagedConnector.loaded))) in
   PagedConnector.inflight w = None /\
   length (PagedConnector.sent w) = 3 /\
   PagedConnector.concatenatedResponse (PagedConnector.vars w) = [] /\
   PagedConnector.promises w = [Pending; Pending; Resolved (VArr [])] /\
   concat (concat [] (VArr [Samples.a; Samples.b])) (VArr [Samples.c])
   = [Samples.a; Samples.b; Samples.c]) /\
  (let w := LinkedConnector.run Samples.two_linked_pages 2
              (LinkedConnector.loop LinkedConnector.seed false
                 (LinkedConnector.fresh LinkedConnector.constructor)) in
   LinkedConnector.inflight w = None /\
   LinkedConnector.results (LinkedConnector.self w)
   = [Samples.a; Samples.b;
      VObj [("next", VArr [VObj [("href", VStr "p2")]])]; Samples.c] /\
   LinkedConnector.promises w
   = [Resolved VUndefined;
      Resolved (VArr (LinkedConnector.results (LinkedConnector.self w)))]).
Proof. vm_compute. repeat split. Qed.



(** C3 (counterexample).  The page at [p1] names [p1] as its next page.
    After its response the connector asks for [p1] again, and again after
    that: three requests are out after two responses, two promises have
    resolved and none is rejected, where the claim has the traversal
    reject and stop after the first response. *)
Lemma C3_counterexample :
  let w := LinkedConnector.run Samples.self_linked_page 2
             (LinkedConnector.loop (VStr "p1") false
                (LinkedConnector.fresh LinkedConnector.constructor)) in
  map target (LinkedConnector.sent w) = [VStr "p1"; VStr "p1"; VStr "p1"] /\
  LinkedConnector.promises w
  = [Resolved VUndefined; Resolved VUndefined; Pending] /\
  (forall e, ~ In (Rejected e) (LinkedConnector.promises w)).
Proof.
  vm_compute. repeat split.
  intros e [H|[H|[H|[]]]]; discriminate.
Qed.

(** C3 (amended).  The connector keeps no record of the addresses it has
    visited and has no error for a cycle.  When the page that comes back
    names a next page, the connector asks for that page whether or not
    it has asked for it before, and the call is not rejected; a page
    that names itself is asked for once per response, without end, and
    none of the calls made on the way is rejected. *)
Theorem C3_visited_link_is_fetched_again :
  (forall up w c r u',
     LinkedConnector.sound w ->
     LinkedConnector.inflight w = Some c ->
     up (LinkedConnector.url c) = Response r ->
     LinkedConnector.has_next_link r = true ->
     LinkedConnector.next_href r = inr u' ->
     truthy u' = true ->
     In u' (map target (LinkedConnector.sent w)) ->
     LinkedConnector.sent (LinkedConnector.step up w)
     = LinkedConnector.sent w ++ [page_fetch u'] /\
     forall e,
       LinkedConnector.promises (LinkedConnector.step up w)
         !! LinkedConnector.returned c <> Some (Rejected e)) /\
  (forall up u r b w n,
     truthy u = true ->
     up u = Response r ->
     LinkedConnector.has_next_link r = true ->
     LinkedConnector.next_href r = inr u ->
     LinkedConnector.sent
       (LinkedConnector.run up n (LinkedConnector.loop u b w))
     = LinkedConnector.sent w ++ repeat (page_fetch u) (S n) /\
     exists made,
       LinkedConnector.promises
         (LinkedConnector.run up n (LinkedConnector.loop u b w))
       = LinkedConnector.promises w ++ made /\
       length made = S n /\
       forall e, ~ In (Rejected e) made).
Proof.
  split.
  - intros up w c r u' Hs H Hr Hl Hh Ht _.
    pose proof (linked_next_of_link up _ r u' Hr Hl Hh Ht) as Hn.
    split.
    + rewrite (linked_step_sent up w c H), Hn. reflexivity.
    + intros e. rewrite (linked_step_promise up w c Hs H).
      rewrite (linked_settles_as_follow up w c u' Hn). discriminate.
  - intros up u r b w n Ht Hr Hl Hh.
    pose proof (linked_next_of_link up u r u Hr Hl Hh Ht) as Hn.
    split.
    + rewrite linked_run_loop_sent, (linked_chain_self up u Hn).
      now rewrite map_repeat.
    + exists (repeat (Resolved VUndefined) n ++ [Pending]).
      split; [|split].
      * apply (linked_run_promises_self up u Hn n
                 (LinkedConnector.loop u b w)
                 {| LinkedConnector.url := u;
                    LinkedConnector.returned := length (LinkedConnector.promises w);
                    LinkedConnector.watched := b |});
          rewrite ?linked_loop_out by exact Ht; reflexivity.
      * rewrite length_app, repeat_length. cbn. lia.
      * intros e Hin. apply in_app_or in Hin. destruct Hin as [Hin|[Hin|[]]].
        -- apply repeat_spec in Hin. discriminate.
        -- discriminate.
Qed.

(** C3 at work: the self-linked page, one response in. *)
Lemma C3_witness :
  let w := LinkedConnector.step Samples.self_linked_page
             (LinkedConnector.loop (VStr "p1") false
                (LinkedConnector.fresh LinkedConnector.constructor)) in
  let c := {| LinkedConnector.url := VStr "p1";
              LinkedConnector.returned := 1;
              LinkedConnector.watched := false |} in
  LinkedConnector.sent (LinkedConnector.step Samples.self_linked_page w)
  = LinkedConnector.sent w ++ [page_fetch (VStr "p1")] /\
  forall e,
    LinkedConnector.promises (LinkedConnector.step Samples.self_linked_page w)
      !! LinkedConnector.returned c <> Some (Rejected e).
Proof.
  intros w c.
  apply (proj1 C3_visited_link_is_fetched_again Samples.self_linked_page w c
           (Samples.linked_page [Samples.a] (Some "p1")) (VStr "p1")).
  - apply linked_step_sound, linked_loop_sound.
  - reflexivity.
  - reflexivity.
  - reflexivity.
  - reflexivity.
  - reflexivity.
  - vm_compute. left. reflexivity.
Defined.



(** C5 (counterexample).  Page 1 of the page-number API is the array
    [a, b]: it has no navigation section, so no next link.  The traversal
    is not over after it: the connector has asked for page 2, and no
    promise has settled. *)
Lemma C5_counterexample :
  let w := PagedConnector.step Samples.cfg Samples.two_numbered_pages
             (snd (PagedConnector.getPages Samples.cfg 1 "cid"
                     (PagedConnector.fresh PagedConnector.loaded))) in
  Samples.two_numbered_pages (VStr "http://wp/wp-json/wp/v2/all?page=1")
  = Response (VArr [Samples.a; Samples.b]) /\
  LinkedConnector.has_next_link (VArr [Samples.a; Samples.b]) = false /\
  map target (PagedConnector.sent w)
  = [VStr "http://wp/wp-json/wp/v2/all?page=1";
     VStr "http://wp/wp-json/wp/v2/all?page=2"] /\
  PagedConnector.inflight w <> None /\
  PagedConnector.promises w = [Pending; Pending].
Proof. vm_compute. repeat split. discriminate. Qed.

(** C5 (amended).  The link-following traversal is over, its last call
    resolved with the accumulator, exactly when the page that came back
    has a body other than [null] and [undefined] with no next link in it:
    no [_links], or a [_links] whose [next] is missing, [null], [false],
    zero or empty.  The page-number traversal has no navigation section
    to look at: it is over, its last call resolved with the module-level
    array, exactly when the body that came back is [null].  Over a finite
    sequence of [k] pages either traversal is still fetching after fewer
    than [k] responses and over after [k], when the call that fetched
    the last page, the one in flight after [k - 1] responses, has
    resolved. *)
Theorem C5_done_exactly_on_the_last_page :
  (forall up w c,
     LinkedConnector.sound w ->
     LinkedConnector.inflight w = Some c ->
     (LinkedConnector.done c (LinkedConnector.step up w) <->
      exists r, up (LinkedConnector.url c) = Response r /\
                r <> VNull /\ r <> VUndefined /\
                LinkedConnector.has_next_link r = false)) /\
  (forall cfg up w c,
     PagedConnector.sound w ->
     PagedConnector.inflight w = Some c ->
     (PagedConnector.done c (PagedConnector.step cfg up w) <->
      up (VStr (PagedConnector.url c)) = Response VNull)) /\
  (forall up u k b w,
     LinkedConnector.finite_from up u k ->
     (forall j, j < k ->
        LinkedConnector.inflight
          (LinkedConnector.run up j (LinkedConnector.loop u b w)) <> None) /\
     exists c,
       LinkedConnector.inflight
         (LinkedConnector.run up (k - 1) (LinkedConnector.loop u b w)) = Some c /\
       LinkedConnector.done c
         (LinkedConnector.run up k (LinkedConnector.loop u b w))) /\
  (forall cfg up p k cid w,
     PagedConnector.finite_from cfg up p k ->
     (forall j, j < k ->
        PagedConnector.inflight
          (PagedConnector.run cfg up j
             (snd (PagedConnector.getPages cfg p cid w))) <> None) /\
     exists c,
       PagedConnector.inflight
         (PagedConnector.run cfg up (k - 1)
            (snd (PagedConnector.getPages cfg p cid w))) = Some c /\
       PagedConnector.done c
         (PagedConnector.run cfg up k
            (snd (PagedConnector.getPages cfg p cid w)))).
Proof.
  repeat apply conj.
  - apply linked_done_iff.
  - apply paged_done_iff.
  - intros up u k b w Hfin.
    apply (linked_finite_terminates up u k Hfin (LinkedConnector.loop u b w)
             {| LinkedConnector.url := u;
                LinkedConnector.returned := length (LinkedConnector.promises w);
                LinkedConnector.watched := b |});
      [apply linked_loop_sound
      |apply linked_loop_inflight, (linked_finite_truthy up u k Hfin)
      |reflexivity].
  - intros cfg up p k cid w Hfin.
    apply (paged_finite_terminates cfg up p k Hfin
             (snd (PagedConnector.getPages cfg p cid w))
             {| PagedConnector.page := p;
                PagedConnector.correlationId := cid;
                PagedConnector.url := PagedConnector.page_url cfg p;
                PagedConnector.returned := length (PagedConnector.promises w) |});
      [apply paged_getPages_sound | apply paged_getPages_inflight
      | reflexivity | reflexivity].
Qed.

(** C5 at work: the one-page feed. *)
Lemma C5_witness :
  let w := LinkedConnector.loop LinkedConnector.seed false
             (LinkedConnector.fresh LinkedConnector.constructor) in
  let c := {| LinkedConnector.url := LinkedConnector.seed;
              LinkedConnector.returned := 0;
              LinkedConnector.watched := false |} in
  LinkedConnector.done c (LinkedConnector.step Samples.one_linked_page w) <->
  exists r, Samples.one_linked_page (LinkedConnector.url c) = Response r /\
            r <> VNull /\ r <> VUndefined /\
            LinkedConnector.has_next_link r = false.
Proof.
  intros w c.
  apply (proj1 C5_done_exactly_on_the_last_page Samples.one_linked_page w c).
  - apply linked_loop_sound.
  - reflexivity.
Defined.

(** C6 (counterexample).  The upstream never answers in time.  Called with
    the correlation identifier [A] and called with [B], the page-number
    connector rejects with the very same value, the time-out as requestify
    gave it: neither the address nor the correlation identifier is on
    it. *)
Lemma C6_counterexample :
  let outcome cid :=
    PagedConnector.promises
      (PagedConnector.step Samples.cfg Samples.unreachable
         (snd (PagedConnector.getPages Samples.cfg 1 cid
                 (PagedConnector.fresh PagedConnector.loaded)))) in
  outcome "A" = [Rejected (Raised (VStr "ETIMEDOUT"))] /\
  outcome "B" = [Rejected (Raised (VStr "ETIMEDOUT"))].
Proof. vm_compute. split; reflexivity. Qed.

(** C6 (amended).  When the fetch of the page a call asked for fails, the
    promise of that call ([getPages] of the page-number connector, [loop]
    of the link-following connector) is rejected with the error as
    requestify gave it, with nothing attached and whatever the
    correlation identifier.  When reading the next link off the page
    throws (the body is [null] or [undefined], or the first entry of
    [next] is), the promise of that call of [loop] is rejected with that
    error.  An address requestify does not take is not asked for at
    all: the promise of that call of [loop] is rejected at once with the
    error of requestify, as it came. *)
Theorem C6_failure_rejects_with_the_error_as_it_came :
  (forall cfg up p cid w reason,
     up (VStr (PagedConnector.page_url cfg p)) = Failed reason ->
     PagedConnector.promises
       (PagedConnector.step cfg up (snd (PagedConnector.getPages cfg p cid w)))
       !! fst (PagedConnector.getPages cfg p cid w)
     = Some (Rejected (Raised reason))) /\
  (forall up u b w reason,
     truthy u = true ->
     up u = Failed reason ->
     LinkedConnector.promises (LinkedConnector.step up (LinkedConnector.loop u b w))
       !! length (LinkedConnector.promises w)
     = Some (Rejected (Raised reason))) /\
  (forall up u b w r,
     truthy u = true ->
     up u = Response r ->
     r = VNull \/ r = VUndefined ->
     LinkedConnector.promises (LinkedConnector.step up (LinkedConnector.loop u b w))
       !! length (LinkedConnector.promises w)
     = Some (Rejected TypeError)) /\
  (forall up u b w r e,
     truthy u = true ->
     up u = Response r ->
     LinkedConnector.has_next_link r = true ->
     LinkedConnector.next_href r = inl e ->
     LinkedConnector.promises (LinkedConnector.step up (LinkedConnector.loop u b w))
       !! length (LinkedConnector.promises w)
     = Some (Rejected e)) /\
  (forall up u b w,
     truthy u = false ->
     LinkedConnector.sent (LinkedConnector.loop u b w) = LinkedConnector.sent w /\
     LinkedConnector.promises (LinkedConnector.loop u b w)
       !! length (LinkedConnector.promises w)
     = Some (Rejected Refused) /\
     LinkedConnector.step up (LinkedConnector.loop u b w)
     = LinkedConnector.loop u b w).
Proof.
  repeat apply conj.
  - intros cfg up p cid w reason Hf.
    rewrite paged_getPages_promise. unfold PagedConnector.settles_as.
    cbn [PagedConnector.url]. now rewrite Hf.
  - intros up u b w reason Ht Hf.
    rewrite linked_loop_promise by exact Ht. unfold LinkedConnector.settles_as.
    cbn [LinkedConnector.url]. now rewrite Hf.
  - intros up u b w r Ht Hr Hnull.
    rewrite linked_loop_promise by exact Ht. unfold LinkedConnector.settles_as.
    cbn [LinkedConnector.url]. now rewrite Hr, (next_test_nullish r Hnull).
  - intros up u b w r e Ht Hr Hl Hh.
    rewrite linked_loop_promise by exact Ht. unfold LinkedConnector.settles_as.
    cbn [LinkedConnector.url]. rewrite Hr.
    destruct (has_next_link_test r) as (t & Ht' & Htt);
      [intros ->; discriminate | intros ->; discriminate |].
    now rewrite Ht', Htt, Hl, Hh.
  - intros up u b w Ht. rewrite linked_loop_refused by exact Ht. cbn.
    repeat split.
    now rewrite lookup_app_r, Nat.sub_diag by lia.
Qed.

(** C6 at work: the upstream that never answers. *)
Lemma C6_witness :
  PagedConnector.promises
    (PagedConnector.step Samples.cfg Samples.unreachable
       (snd (PagedConnector.getPages Samples.cfg 1 "cid"
               (PagedConnector.fresh PagedConnector.loaded))))
    !! fst (PagedConnector.getPages Samples.cfg 1 "cid"
              (PagedConnector.fresh PagedConnector.loaded))
  = Some (Rejected (Raised (VStr "ETIMEDOUT"))).
Proof.
  apply (proj1 C6_failure_rejects_with_the_error_as_it_came
           Samples.cfg Samples.unreachable 1%Z "cid"
           (PagedConnector.fresh PagedConnector.loaded) (VStr "ETIMEDOUT")).
  reflexivity.
Defined.




(** C8.  A call of [loop] or of [getPages] sends one request, a GET to the
    address of the page with redirects followed and a time-out of 120000
    ms, and a traversal sends nothing else: what has been sent after any
    number of steps is one such request per address visited, in order. *)
Theorem C8_every_fetch_is_one_get_with_timeout :
  (forall u,
     method (page_fetch u) = GET /\ target (page_fetch u) = u /\
     redirect (page_fetch u) = true /\ timeout (page_fetch u) = 120000%Z) /\
  (forall up n u b w,
     LinkedConnector.sent (LinkedConnector.run up n (LinkedConnector.loop u b w))
     = LinkedConnector.sent w
       ++ map page_fetch (LinkedConnector.chain up (S n) u)) /\
  (forall cfg up n p cid w,
     PagedConnector.sent
       (PagedConnector.run cfg up n (snd (PagedConnector.getPages cfg p cid w)))
     = PagedConnector.sent w
       ++ map (fun q => page_fetch (VStr (PagedConnector.page_url cfg q)))
              (PagedConnector.pages_from cfg up (S n) p)).
Proof.
  split; [intros u; repeat split|].
  split.
  - intros up n u b w. apply linked_run_loop_sent.
  - intros cfg up n p cid w.
    rewrite (paged_run_sent cfg up n (snd (PagedConnector.getPages cfg p cid w))
               {| PagedConnector.page := p;
                  PagedConnector.correlationId := cid;
                  PagedConnector.url := PagedConnector.page_url cfg p;
                  PagedConnector.returned := length (PagedConnector.promises w) |}
               (paged_getPages_inflight cfg p cid w) eq_refl).
    rewrite paged_getPages_out. cbn. now rewrite <- app_assoc.
Qed.

(** * The page store *)

Section StoreFacts.
Import MongoStorePersistence.

Lemma collection_of_put_eq coll d m :
  collection_of (put coll d m) coll = <[_id d := d]> (collection_of m coll).
Proof. unfold collection_of, put. cbn. now rewrite lookup_insert_eq. Qed.

Lemma collection_of_put_ne coll coll' d m :
  coll <> coll' -> collection_of (put coll d m) coll' = collection_of m coll'.
Proof.
  intros H. unfold collection_of, put. cbn. now rewrite lookup_insert_ne.
Qed.

Ltac run_save :=
  unfold save, try_catch, bind, getCollection, findOne, replaceOne,
         insertOne, failing, throw, ret, logger_error; cbn.

(** C9.  Whatever the arguments, the store and the calls that fail,
    [save] settles with a value and never with an error.  When a call it
    makes fails, or [data] is [null], that value is [{ result: false,
    update: false }] and the store is as it was; when nothing fails it is
    the answer of the driver to the write it made, a replacement with the
    update flag set when the document was there, an insertion with the
    flag unset when it was not. *)
Theorem C9_save_never_rejects :
  forall f data dbName m,
    exists r m',
      save f data dbName m = (inr r, m') /\
      (at_getCollection f <> None \/ data = None \/
       at_findOne f <> None \/ at_write f <> None ->
       r = {| result := RFalse; update := false |} /\ pages m' = pages m) /\
      (f = no_faults ->
       forall d, data = Some d ->
         r = match collection_of m dbName !! _id d with
             | Some _ => {| result := RWrite (Replaced 1 0); update := true |}
             | None => {| result := RWrite (Inserted (_id d)); update := false |}
             end).
Proof.
  intros [fc ff fw] data dbName m. run_save.
  destruct fc as [e|]; cbn.
  { eexists _, _. split; [reflexivity|]. split; [auto|]. discriminate. }
  destruct data as [d|]; cbn.
  2:{ eexists _, _. split; [reflexivity|]. split; [auto|]. discriminate. }
  destruct ff as [e|]; cbn.
  { eexists _, _. split; [reflexivity|]. split; [auto|]. discriminate. }
  destruct (collection_of m dbName !! _id d) as [old|] eqn:E; cbn.
  - destruct fw as [e|]; cbn.
    { eexists _, _. split; [reflexivity|]. split; [auto|]. discriminate. }
    rewrite E. eexists _, _. split; [reflexivity|]. split.
    + intros [H|[H|[H|H]]]; congruence.
    + intros _ d' [= <-]. now rewrite E.
  - destruct fw as [e|]; cbn.
    { eexists _, _. split; [reflexivity|]. split; [auto|]. discriminate. }
    rewrite E. eexists _, _. split; [reflexivity|]. split.
    + intros [H|[H|[H|H]]]; congruence.
    + intros _ d' [= <-]. now rewrite E.
Qed.

(** C10.  When [save] succeeds, the update flag is set exactly when the
    collection held a document with the [_id] of [data] before the call.
    Then the driver was asked to replace and found that one document;
    otherwise it was asked to insert.  Either way the collection holds
    [data] under its [_id] afterwards, its other documents are as they
    were, and so are the other databases. *)
Theorem C10_update_flag_tells_replace_from_insert :
  forall f d dbName m r m',
    save f (Some d) dbName m = (inr r, m') ->
    result r <> RFalse ->
    (update r = true <-> is_Some (collection_of m dbName !! _id d)) /\
    (update r = true -> result r = RWrite (Replaced 1 0)) /\
    (update r = false -> result r = RWrite (Inserted (_id d))) /\
    collection_of m' dbName = <[_id d := d]> (collection_of m dbName) /\
    (forall other, other <> dbName ->
                   collection_of m' other = collection_of m other).
Proof.
  intros [fc ff fw] d dbName m r m'. run_save.
  destruct fc as [e|]; cbn.
  { intros [= <- <-]. cbn. congruence. }
  destruct ff as [e|]; cbn.
  { intros [= <- <-]. cbn. congruence. }
  destruct (collection_of m dbName !! _id d) as [old|] eqn:E; cbn.
  - destruct fw as [e|]; cbn.
    { intros [= <- <-]. cbn. congruence. }
    rewrite E. intros [= <- <-] _. cbn. repeat split; eauto; try discriminate.
    + apply collection_of_put_eq.
    + intros other Hne. now apply collection_of_put_ne.
  - destruct fw as [e|]; cbn.
    { intros [= <- <-]. cbn. congruence. }
    rewrite E. intros [= <- <-] _. cbn. repeat split; eauto; try discriminate.
    + intros [x Hx]. discriminate.
    + apply collection_of_put_eq.
    + intros other Hne. now apply collection_of_put_ne.
Qed.

End StoreFacts.

(** C9 at work: the find fails. *)
Lemma C9_witness :
  exists r m',
    MongoStorePersistence.save Samples.find_fails (Some Samples.post)
      "site" Samples.empty_store = (inr r, m') /\
    (MongoStorePersistence.at_getCollection Samples.find_fails <> None \/
     Some Samples.post = None \/
     MongoStorePersistence.at_findOne Samples.find_fails <> None \/
     MongoStorePersistence.at_write Samples.find_fails <> None ->
     r = {| MongoStorePersistence.result := MongoStorePersistence.RFalse;
            MongoStorePersistence.update := false |} /\
     MongoStorePersistence.pages m'
     = MongoStorePersistence.pages Samples.empty_store) /\
    (Samples.find_fails = MongoStorePersistence.no_faults ->
     forall d, Some Samples.post = Some d ->
       r = match MongoStorePersistence.collection_of Samples.empty_store "site"
                   !! MongoStorePersistence._id d with
           | Some _ =>
               {| MongoStorePersistence.result :=
                    MongoStorePersistence.RWrite
                      (MongoStorePersistence.Replaced 1 0);
                  MongoStorePersistence.update := true |}
           | None =>
               {| MongoStorePersistence.result :=
                    MongoStorePersistence.RWrite
                      (MongoStorePersistence.Inserted
                         (MongoStorePersistence._id d));
                  MongoStorePersistence.update := false |}
           end).
Proof.
  apply (C9_save_never_rejects Samples.find_fails (Some Samples.post)
           "site" Samples.empty_store).
Defined.

(** C10 at work: saving a post twice; the second save is an update. *)
Lemma C10_witness :
  let m := MongoStorePersistence.put "site" Samples.post Samples.empty_store in
  let r := {| MongoStorePersistence.result :=
                MongoStorePersistence.RWrite (MongoStorePersistence.Replaced 1 0);
              MongoStorePersistence.update := true |} in
  let m' := MongoStorePersistence.put "site" Samples.post_edited m in
  (MongoStorePersistence.update r = true <->
   is_Some (MongoStorePersistence.collection_of m "site"
              !! MongoStorePersistence._id Samples.post_edited)) /\
  (MongoStorePersistence.update r = true ->
   MongoStorePersistence.result r
   = MongoStorePersistence.RWrite (MongoStorePersistence.Replaced 1 0)) /\
  (MongoStorePersistence.update r = false ->
   MongoStorePersistence.result r
   = MongoStorePersistence.RWrite
       (MongoStorePersistence.Inserted
          (MongoStorePersistence._id Samples.post_edited))) /\
  MongoStorePersistence.collection_of m' "site"
  = <[MongoStorePersistence._id Samples.post_edited := Samples.post_edited]>
      (MongoStorePersistence.collection_of m "site") /\
  (forall other, other <> "site" ->
     MongoStorePersistence.collection_of m' other
     = MongoStorePersistence.collection_of m other).
Proof.
  intros m r m'.
  apply (C10_update_flag_tells_replace_from_insert
           MongoStorePersistence.no_faults Samples.post_edited "site" m r m').
  - vm_compute. reflexivity.
  - discriminate.
Defined.

(** * Further properties: the page store *)

Section PageStoreFacts.
Import MongoStorePersistence.

Ltac run_store :=
  unfold PageStore.remove, PageStore.findOne, PageStore.find,
         PageStore.collection_remove, PageStore.logger_info,
         save, try_catch, bind, getCollection, findOne, replaceOne,
         insertOne, failing, throw, ret, logger_error; cbn.

Lemma collection_of_same_pages m m' coll :
  pages m = pages m' -> collection_of m coll = collection_of m' coll.
Proof. unfold collection_of. now intros ->. Qed.

Lemma save_success_inv f d dbName m r m' :
  save f (Some d) dbName m = (inr r, m') ->
  result r <> RFalse ->
  f = no_faults /\ m' = put dbName d m.
Proof.
  destruct f as [fc ff fw]. run_store.
  destruct fc as [e|]; cbn; [intros [= <- <-]; cbn; congruence|].
  destruct ff as [e|]; cbn; [intros [= <- <-]; cbn; congruence|].
  destruct (collection_of m dbName !! _id d) as [old|] eqn:E; cbn;
    (destruct fw as [e|]; cbn; [intros [= <- <-]; cbn; congruence|]);
    rewrite E; intros [= <- <-] _; split; reflexivity.
Qed.

Lemma save_no_faults d dbName m :
  save no_faults (Some d) dbName m
  = (inr match collection_of m dbName !! _id d with
         | Some _ => {| result := RWrite (Replaced 1 0); update := true |}
         | None => {| result := RWrite (Inserted (_id d)); update := false |}
         end,
     put dbName d m).
Proof.
  run_store. destruct (collection_of m dbName !! _id d) eqn:E; cbn;
    now rewrite E.
Qed.

Lemma findOne_no_faults id dbName m :
  PageStore.findOne no_faults {| PageStore.one_query := id |} dbName m
  = (inr (collection_of m dbName !! id), m).
Proof. reflexivity. Qed.

Lemma remove_no_faults id dbName m :
  exists m',
    PageStore.remove no_faults id dbName m = (inr true, m') /\
    collection_of m' dbName = delete id (collection_of m dbName) /\
    forall other, other <> dbName ->
                  collection_of m' other = collection_of m other.
Proof.
  run_store. destruct (collection_of m dbName !! id) as [old|] eqn:E; cbn.
  - eexists. split; [reflexivity|]. split.
    + unfold collection_of at 1. cbn. now rewrite lookup_insert_eq.
    + intros other Hne. unfold collection_of at 1. cbn.
      now rewrite lookup_insert_ne.
  - eexists. split; [reflexivity|]. split; [|reflexivity].
    symmetry. now apply delete_id.
Qed.

(** X1.  [remove] settles with [true] or [false] and never with an error.
    It answers [true] exactly when neither [getCollection] nor the
    driver's removal fails, whether or not a document with that [_id] was
    there; then the collection is what it was without that [_id], and
    every other database is as it was.  When it answers [false] the
    store is as it was. *)
Theorem X1_remove_answers_true_or_false :
  forall f id dbName m,
    exists b m',
      PageStore.remove f id dbName m = (inr b, m') /\
      (b = true <-> at_getCollection f = None /\ at_write f = None) /\
      (b = true ->
       collection_of m' dbName = delete id (collection_of m dbName) /\
       forall other, other <> dbName ->
                     collection_of m' other = collection_of m other) /\
      (b = false -> pages m' = pages m).
Proof.
  intros [fc ff fw] id dbName m. run_store.
  destruct fc as [e|]; cbn.
  { eexists _, _. split; [reflexivity|]. repeat split; try discriminate.
    intros [H _]. discriminate. }
  destruct fw as [e|]; cbn.
  { eexists _, _. split; [reflexivity|]. repeat split; try discriminate.
    intros [_ H]. discriminate. }
  destruct (collection_of m dbName !! id) as [old|] eqn:E; cbn.
  - eexists _, _. split; [reflexivity|]. repeat split; try discriminate.
    + unfold collection_of at 1. cbn. now rewrite lookup_insert_eq.
    + intros other Hne. unfold collection_of at 1. cbn.
      now rewrite lookup_insert_ne.
  - eexists _, _. split; [reflexivity|]. repeat split; try discriminate.
    symmetry. now apply delete_id.
Qed.

Lemma remove_true_inv f id dbName m m' :
  PageStore.remove f id dbName m = (inr true, m') ->
  collection_of m' dbName = delete id (collection_of m dbName).
Proof.
  destruct f as [fc ff fw]. run_store.
  destruct fc as [e|]; cbn; [discriminate|].
  destruct fw as [e|]; cbn; [discriminate|].
  destruct (collection_of m dbName !! id) as [old|] eqn:E; cbn;
    intros [= <-].
  - unfold collection_of at 1. cbn. now rewrite lookup_insert_eq.
  - symmetry. now apply delete_id.
Qed.

(** X2.  What [save] stored, [findOne] finds, unless the read itself
    fails: after a [save] that succeeded, a [findOne] with the [_id] of
    the data is rejected with the reason when its [getCollection] or its
    read fails, and answers the data as saved otherwise, whatever was
    stored under that [_id] before; for any other [_id] it settles as it
    would have before the [save].  The [findOne] leaves the store as it
    is. *)
Theorem X2_saved_document_is_found :
  forall f f' d dbName m r m',
    save f (Some d) dbName m = (inr r, m') ->
    result r <> RFalse ->
    PageStore.findOne f' {| PageStore.one_query := _id d |} dbName m'
    = (match at_getCollection f', at_findOne f' with
       | Some reason, _ => inl (Raised reason)
       | None, Some reason => inl (Raised reason)
       | None, None => inr (Some d)
       end, m') /\
    forall id, id <> _id d ->
      PageStore.findOne f' {| PageStore.one_query := id |} dbName m'
      = (fst (PageStore.findOne f' {| PageStore.one_query := id |} dbName m),
         m').
Proof.
  intros f [fc ff fw] d dbName m r m' Hs Hr.
  destruct (save_success_inv f d dbName m r m' Hs Hr) as [_ ->].
  run_store. destruct fc as [e|]; cbn; [split; reflexivity|].
  destruct ff as [e|]; cbn; [split; reflexivity|].
  rewrite collection_of_put_eq. split.
  - now rewrite lookup_insert_eq.
  - intros id Hne. now rewrite lookup_insert_ne by congruence.
Qed.

(** X3.  [remove] undoes a [save]: after a [save] that succeeded and a
    [remove] of the same [_id] that answered [true], a [findOne] that
    does not fail answers [null], a [save] of the data that does not
    fail is an insertion again, and when the document was new the
    collection is back to what it was before the first [save]. *)
Theorem X3_remove_undoes_save :
  forall f f' d dbName m r m1 m2,
    save f (Some d) dbName m = (inr r, m1) ->
    result r <> RFalse ->
    PageStore.remove f' (_id d) dbName m1 = (inr true, m2) ->
    fst (PageStore.findOne no_faults {| PageStore.one_query := _id d |}
           dbName m2)
    = inr None /\
    fst (save no_faults (Some d) dbName m2)
    = inr {| result := RWrite (Inserted (_id d)); update := false |} /\
    (collection_of m dbName !! _id d = None ->
     collection_of m2 dbName = collection_of m dbName).
Proof.
  intros f f' d dbName m r m1 m2 Hs Hr Hrm.
  destruct (save_success_inv f d dbName m r m1 Hs Hr) as [_ ->].
  pose proof (remove_true_inv f' (_id d) dbName _ m2 Hrm) as Hcoll.
  rewrite findOne_no_faults, save_no_faults, Hcoll, lookup_delete_eq.
  repeat split.
  intros Hnone. rewrite collection_of_put_eq, delete_insert_eq.
  now apply delete_id.
Qed.

(** X4.  Saving the same data twice: whichever of its calls fail, the
    second [save] leaves the store as the first [save] left it; when it
    succeeds, as it does when none of its calls fails, it is an update
    that found the one document. *)
Theorem X4_saving_twice_changes_nothing_more :
  forall f f' d dbName m r m1,
    save f (Some d) dbName m = (inr r, m1) ->
    result r <> RFalse ->
    exists r2 m2,
      save f' (Some d) dbName m1 = (inr r2, m2) /\
      pages m2 = pages m1 /\
      (result r2 <> RFalse ->
       r2 = {| result := RWrite (Replaced 1 0); update := true |}) /\
      (f' = no_faults -> result r2 <> RFalse).
Proof.
  intros f [fc ff fw] d dbName m r m1 Hs Hr.
  destruct (save_success_inv f d dbName m r m1 Hs Hr) as [_ ->].
  run_store.
  destruct fc as [e|]; cbn.
  { eexists _, _. split; [reflexivity|]. cbn.
    repeat split; try congruence; discriminate. }
  destruct ff as [e|]; cbn.
  { eexists _, _. split; [reflexivity|]. cbn.
    repeat split; try congruence; discriminate. }
  rewrite collection_of_put_eq, lookup_insert_eq. cbn.
  destruct fw as [e|]; cbn.
  { eexists _, _. split; [reflexivity|]. cbn.
    repeat split; try congruence; discriminate. }
  rewrite collection_of_put_eq, lookup_insert_eq.
  eexists _, _. split; [reflexivity|]. cbn.
  rewrite collection_of_put_eq, insert_insert_eq.
  repeat split; try discriminate.
  unfold put. cbn. now rewrite insert_insert_eq.
Qed.

(** X5.  The reads let a failure through, the writes swallow it.  When
    [getCollection] fails, [findOne] and [find] are rejected with the
    reason it gave, while [save] answers [{ result: false, update: false }]
    and [remove] answers [false]; when the driver's read fails, [findOne]
    and [find] are rejected with that reason.  In none of these cases is
    a document of the store touched. *)
Theorem X5_reads_reject_where_writes_answer_false :
  forall drv f data id one many dbName m,
    (forall reason,
       at_getCollection f = Some reason ->
       PageStore.findOne f one dbName m = (inl (Raised reason), m) /\
       snd (PageStore.find drv f many dbName) m = (inl (Raised reason), m) /\
       fst (save f data dbName m)
       = inr {| result := RFalse; update := false |} /\
       fst (PageStore.remove f id dbName m) = inr false /\
       pages (snd (save f data dbName m)) = pages m /\
       pages (snd (PageStore.remove f id dbName m)) = pages m) /\
    (forall reason,
       at_getCollection f = None ->
       at_findOne f = Some reason ->
       PageStore.findOne f one dbName m = (inl (Raised reason), m) /\
       snd (PageStore.find drv f many dbName) m = (inl (Raised reason), m)).
Proof.
  intros drv [fc ff fw] data id one many dbName m. split.
  - intros reason Hc. cbn in Hc. subst fc. run_store. repeat split.
  - intros reason Hc Hf. cbn in Hc, Hf. subst fc ff. run_store.
    repeat split.
Qed.

(** X6.  [find] writes the limit it uses back into the options object of
    its caller: an options object without a limit comes back with limit
    0, one with a limit comes back as it was.  The driver is asked with
    the options as they come back, so a second [find] with the same
    object gives the same documents and changes the object no
    further. *)
Theorem X6_find_fills_in_the_limit :
  forall drv f many dbName,
    let after := fst (PageStore.find drv f many dbName) in
    PageStore.limit after <> VUndefined /\
    (PageStore.limit many = VUndefined ->
     after = {| PageStore.query := PageStore.query many;
                PageStore.sort := PageStore.sort many;
                PageStore.limit := VNum 0 |}) /\
    (PageStore.limit many <> VUndefined -> after = many) /\
    PageStore.find drv f after dbName = PageStore.find drv f many dbName /\
    (forall m,
       at_getCollection f = None -> at_findOne f = None ->
       snd (PageStore.find drv f many dbName) m
       = (inr (drv (collection_of m dbName) (PageStore.query many)
                   (PageStore.sort many) (PageStore.limit after)), m)).
Proof.
  intros drv [fc ff fw] [q s l] dbName. cbn.
  destruct l; cbn; repeat split; try discriminate; try congruence;
    intros m Hc Hf; cbn in Hc, Hf; subst fc ff; reflexivity.
Qed.

End PageStoreFacts.

(** X2 at work: a post saved into the empty store, and a read that
    fails. *)
Lemma X2_witness :
  let m' := MongoStorePersistence.put "site" MoreSamples.post
              MoreSamples.empty_store in
  PageStore.findOne Samples.find_fails
    {| PageStore.one_query := MongoStorePersistence._id MoreSamples.post |}
    "site" m'
  = (inl (Raised (VStr "connection closed")), m') /\
  forall id, id <> MongoStorePersistence._id MoreSamples.post ->
    PageStore.findOne Samples.find_fails
      {| PageStore.one_query := id |} "site" m'
    = (fst (PageStore.findOne Samples.find_fails
              {| PageStore.one_query := id |} "site" MoreSamples.empty_store),
       m').
Proof.
  apply (X2_saved_document_is_found MongoStorePersistence.no_faults
           Samples.find_fails
           MoreSamples.post "site" MoreSamples.empty_store
           {| MongoStorePersistence.result :=
                MongoStorePersistence.RWrite
                  (MongoStorePersistence.Inserted "post-7");
              MongoStorePersistence.update := false |}).
  - vm_compute. reflexivity.
  - discriminate.
Defined.

(** X3 at work: the post saved into the empty store, then removed. *)
Lemma X3_witness :
  let m1 := MongoStorePersistence.put "site" MoreSamples.post
              MoreSamples.empty_store in
  let m2 := snd (PageStore.remove MongoStorePersistence.no_faults
                   "post-7" "site" m1) in
  fst (PageStore.findOne MongoStorePersistence.no_faults
         {| PageStore.one_query := MongoStorePersistence._id MoreSamples.post |}
         "site" m2)
  = inr None /\
  fst (MongoStorePersistence.save MongoStorePersistence.no_faults
         (Some MoreSamples.post) "site" m2)
  = inr {| MongoStorePersistence.result :=
             MongoStorePersistence.RWrite
               (MongoStorePersistence.Inserted
                  (MongoStorePersistence._id MoreSamples.post));
           MongoStorePersistence.update := false |} /\
  (MongoStorePersistence.collection_of MoreSamples.empty_store "site"
     !! MongoStorePersistence._id MoreSamples.post = None ->
   MongoStorePersistence.collection_of m2 "site"
   = MongoStorePersistence.collection_of MoreSamples.empty_store "site").
Proof.
  intros m1 m2.
  apply (X3_remove_undoes_save MongoStorePersistence.no_faults
           MongoStorePersistence.no_faults
           MoreSamples.post "site" MoreSamples.empty_store
           {| MongoStorePersistence.result :=
                MongoStorePersistence.RWrite
                  (MongoStorePersistence.Inserted "post-7");
              MongoStorePersistence.update := false |} m1 m2).
  - vm_compute. reflexivity.
  - discriminate.
  - reflexivity.
Defined.

(** X4 at work: the post saved into the empty store, then saved again
    while the read of the store fails. *)
Lemma X4_witness :
  exists r2 m2,
    MongoStorePersistence.save Samples.find_fails
      (Some MoreSamples.post) "site"
      (MongoStorePersistence.put "site" MoreSamples.post MoreSamples.empty_store)
    = (inr r2, m2) /\
    MongoStorePersistence.pages m2
    = MongoStorePersistence.pages
        (MongoStorePersistence.put "site" MoreSamples.post
           MoreSamples.empty_store) /\
    (MongoStorePersistence.result r2 <> MongoStorePersistence.RFalse ->
     r2 = {| MongoStorePersistence.result :=
               MongoStorePersistence.RWrite
                 (MongoStorePersistence.Replaced 1 0);
             MongoStorePersistence.update := true |}) /\
    (Samples.find_fails = MongoStorePersistence.no_faults ->
     MongoStorePersistence.result r2 <> MongoStorePersistence.RFalse).
Proof.
  apply (X4_saving_twice_changes_nothing_more MongoStorePersistence.no_faults
           Samples.find_fails
           MoreSamples.post "site" MoreSamples.empty_store
           {| MongoStorePersistence.result :=
                MongoStorePersistence.RWrite
                  (MongoStorePersistence.Inserted "post-7");
              MongoStorePersistence.update := false |}).
  - vm_compute. reflexivity.
  - discriminate.
Defined.


(** * Further properties: the connectors *)

Lemma linked_step_promises_done up w c r :
  LinkedConnector.inflight w = Some c ->
  up (LinkedConnector.url c) = Response r ->
  r <> VNull -> r <> VUndefined ->
  LinkedConnector.has_next_link r = false ->
  LinkedConnector.promises (LinkedConnector.step up w)
  = <[LinkedConnector.returned c :=
        Resolved (VArr (LinkedConnector.results (LinkedConnector.self w)
                        ++ values r))]>
      (LinkedConnector.promises w).
Proof.
  intros H Hr Hn Hu Hl. unfold LinkedConnector.step. rewrite H, Hr. cbn.
  unfold LinkedConnector.on_response. cbn.
  destruct (has_next_link_test r Hn Hu) as (t & Ht & Htt).
  rewrite Ht, Htt, Hl. cbn.
  destruct (LinkedConnector.watched c); reflexivity.
Qed.

Lemma linked_finite_promises up u k :
  LinkedConnector.finite_from up u k ->
  forall w c ps,
    LinkedConnector.inflight w = Some c ->
    LinkedConnector.url c = u ->
    LinkedConnector.promises w = ps ++ [Pending] ->
    LinkedConnector.returned c = length ps ->
    LinkedConnector.promises (LinkedConnector.run up k w)
    = ps ++ repeat (Resolved VUndefined) (k - 1)
         ++ [Resolved (VArr (LinkedConnector.results
                               (LinkedConnector.self (LinkedConnector.run up k w))))].
Proof.
  induction 1 as [u r Ht Hr Hn Hu Hl | u r u' k Ht Hr Hl Hh Hfin IH];
    intros w c ps H Huc Hp Hret; subst u.
  - cbn. rewrite (linked_step_results up w c H).
    rewrite (linked_step_promises_done up w c r H Hr Hn Hu Hl), Hp, Hret.
    unfold LinkedConnector.items_at. rewrite Hr.
    rewrite insert_app_r_alt by lia. now rewrite Nat.sub_diag.
  - pose proof (linked_finite_positive _ _ _ Hfin) as Hk.
    pose proof (linked_finite_truthy _ _ _ Hfin) as Ht'.
    pose proof (linked_next_of_link up _ r u' Hr Hl Hh Ht') as Hnext.
    pose proof (linked_step_inflight up w c H) as Hi. rewrite Hnext in Hi.
    pose proof (linked_step_promises_follow up w c u' H Hnext) as Hs.
    change (LinkedConnector.run up (S k) w)
      with (LinkedConnector.run up k (LinkedConnector.step up w)).
    rewrite (IH _ _ (ps ++ [Resolved VUndefined]) Hi eq_refl).
    + replace (S k - 1) with (S (k - 1)) by lia. cbn.
      now rewrite <- app_assoc.
    + rewrite Hs, Hp, Hret, <- app_assoc.
      rewrite insert_app_r_alt by lia. rewrite Nat.sub_diag. cbn.
      now rewrite <- app_assoc.
    + cbn. rewrite Hp, !length_app. reflexivity.
Qed.

(** X7.  The promise [getPages] of the link-following connector hands to
    its caller is never settled: it is pending after any number of
    responses, whatever the upstream serves. *)
Theorem X7_linked_getPages_promise_never_settles :
  forall up cid w n,
    LinkedConnector.promises
      (LinkedConnector.run up n (snd (LinkedConnector.getPages cid w)))
      !! fst (LinkedConnector.getPages cid w)
    = Some Pending.
Proof. intros up cid w n. apply linked_getPages_stays_pending. Qed.

(** X8.  The promise [loop] returns is settled by the first response and
    by nothing after it.  A failed fetch rejects it with the reason; a
    first page with a next link resolves it with [undefined], whatever
    the later pages hold and whether or not their fetches fail; a first
    page without a next link resolves it with the accumulator.  Later
    responses leave it as it is.  For an address requestify does not
    take there is no response to wait for: the promise is rejected from
    the start. *)
Theorem X8_loop_promise_is_settled_by_the_first_response :
  forall up u b w n,
    let p := LinkedConnector.promises
               (LinkedConnector.run up (S n) (LinkedConnector.loop u b w))
               !! length (LinkedConnector.promises w) in
    (truthy u = true ->
     (forall reason,
        up u = Failed reason -> p = Some (Rejected (Raised reason))) /\
     (forall r u',
        up u = Response r -> LinkedConnector.has_next_link r = true ->
        LinkedConnector.next_href r = inr u' ->
        p = Some (Resolved VUndefined)) /\
     (forall r,
        up u = Response r -> r <> VNull -> r <> VUndefined ->
        LinkedConnector.has_next_link r = false ->
        p = Some (Resolved (VArr (LinkedConnector.results (LinkedConnector.self w)
                                  ++ values r))))) /\
    (truthy u = false -> p = Some (Rejected Refused)).
Proof.
  intros up u b w n p. split.
  - intros Ht.
    pose (c := {| LinkedConnector.url := u;
                  LinkedConnector.returned := length (LinkedConnector.promises w);
                  LinkedConnector.watched := b |}).
    assert (Hp : p = Some (LinkedConnector.settles_as up (LinkedConnector.loop u b w) c)).
    { subst p.
      change (LinkedConnector.run up (S n) (LinkedConnector.loop u b w))
        with (LinkedConnector.run up n
                (LinkedConnector.step up (LinkedConnector.loop u b w))).
      rewrite linked_promise_untouched.
      - now apply linked_loop_promise.
      - pose proof (linked_step_promises_length up (LinkedConnector.loop u b w)) as Hle.
        pose proof (linked_loop_promises_length u b w). lia.
      - intros c' H'.
        rewrite (linked_step_inflight up (LinkedConnector.loop u b w) c
                   (linked_loop_inflight u b w Ht)) in H'.
        destruct (LinkedConnector.next_of up (LinkedConnector.url c));
          [|discriminate].
        injection H' as <-. cbn [LinkedConnector.returned].
        rewrite linked_loop_promises_length. lia. }
    rewrite Hp. unfold LinkedConnector.settles_as. cbn [LinkedConnector.url c].
    rewrite linked_loop_results.
    repeat split.
    + intros reason ->. reflexivity.
    + intros r u' Hr Hl Hh. rewrite Hr.
      destruct (has_next_link_test r) as (t & Ht' & Htt);
        [intros ->; discriminate | intros ->; discriminate |].
      now rewrite Ht', Htt, Hl, Hh.
    + intros r Hr Hn Hu Hl. rewrite Hr.
      destruct (has_next_link_test r Hn Hu) as (t & Ht' & Htt).
      now rewrite Ht', Htt, Hl.
  - intros Ht. subst p.
    rewrite linked_run_idle by (now rewrite linked_loop_refused).
    rewrite linked_loop_refused by exact Ht. cbn.
    now rewrite lookup_app_r, Nat.sub_diag by lia.
Qed.

(** X9.  The promise [getPages] of the page-number connector hands to its
    caller is decided by the first response alone: rejected with the
    reason when the first fetch fails, resolved with the module-level
    array when the first body is [null], and pending for ever when the
    first body is anything else, whatever the later pages are. *)
Theorem X9_paged_promise_is_decided_by_the_first_response :
  forall cfg up p cid w n,
    let pr := PagedConnector.promises
                (PagedConnector.run cfg up (S n)
                   (snd (PagedConnector.getPages cfg p cid w)))
                !! fst (PagedConnector.getPages cfg p cid w) in
    (forall reason,
       up (VStr (PagedConnector.page_url cfg p)) = Failed reason ->
       pr = Some (Rejected (Raised reason))) /\
    (up (VStr (PagedConnector.page_url cfg p)) = Response VNull ->
     pr = Some (Resolved (VArr (PagedConnector.concatenatedResponse
                                  (PagedConnector.vars w))))) /\
    (forall body,
       up (VStr (PagedConnector.page_url cfg p)) = Response body ->
       body <> VNull ->
       pr = Some Pending).
Proof.
  intros cfg up p cid w n pr.
  pose (c := {| PagedConnector.page := p;
                PagedConnector.correlationId := cid;
                PagedConnector.url := PagedConnector.page_url cfg p;
                PagedConnector.returned := length (PagedConnector.promises w) |}).
  pose proof (paged_getPages_promise cfg up p cid w) as Hp.
  pose proof (paged_step_inflight cfg up
                (snd (PagedConnector.getPages cfg p cid w)) c
                (paged_getPages_inflight cfg p cid w)) as Hi.
  unfold PagedConnector.settles_as in Hp. cbn [PagedConnector.url c] in Hp, Hi.
  repeat split.
  - intros reason Hf. rewrite Hf in Hp, Hi. subst pr.
    change (PagedConnector.run cfg up (S n) ?w0)
      with (PagedConnector.run cfg up n (PagedConnector.step cfg up w0)).
    now rewrite paged_run_idle by exact Hi.
  - intros Hr. rewrite Hr in Hp, Hi. subst pr.
    change (PagedConnector.run cfg up (S n) ?w0)
      with (PagedConnector.run cfg up n (PagedConnector.step cfg up w0)).
    now rewrite paged_run_idle by exact Hi.
  - intros body Hr Hb. subst pr.
    now apply paged_getPages_stays_pending with (body := body).
Qed.

(** X10 (the link-following side).  Over a finite sequence of [k] pages
    every call of [loop] but the last resolves with [undefined]; only the
    call that fetched the last page resolves with the accumulator, which
    then holds what it held before and the values of the [k] pages, in
    order. *)
Theorem X10_only_the_last_loop_call_resolves_with_the_pages :
  forall up u k b w,
    LinkedConnector.finite_from up u k ->
    LinkedConnector.promises
      (LinkedConnector.run up k (LinkedConnector.loop u b w))
    = LinkedConnector.promises w
      ++ repeat (Resolved VUndefined) (k - 1)
      ++ [Resolved
            (VArr (LinkedConnector.results (LinkedConnector.self w)
                   ++ flat_map (LinkedConnector.items_at up)
                               (LinkedConnector.chain up k u)))].
Proof.
  intros up u k b w Hfin.
  pose proof (linked_finite_truthy up u k Hfin) as Ht.
  pose (c := {| LinkedConnector.url := u;
                LinkedConnector.returned := length (LinkedConnector.promises w);
                LinkedConnector.watched := b |}).
  rewrite (linked_finite_promises up u k Hfin (LinkedConnector.loop u b w) c
             (LinkedConnector.promises w) (linked_loop_inflight u b w Ht)
             eq_refl);
    [|now rewrite linked_loop_out|reflexivity].
  now rewrite linked_run_loop_results.
Qed.

(** X10 at work: the two linked pages. *)
Lemma X10_witness :
  LinkedConnector.promises
    (LinkedConnector.run Samples.two_linked_pages 2
       (LinkedConnector.loop LinkedConnector.seed false
          (LinkedConnector.fresh LinkedConnector.constructor)))
  = LinkedConnector.promises (LinkedConnector.fresh LinkedConnector.constructor)
    ++ repeat (Resolved VUndefined) (2 - 1)
    ++ [Resolved
          (VArr (LinkedConnector.results
                   (LinkedConnector.self
                      (LinkedConnector.fresh LinkedConnector.constructor))
                 ++ flat_map (LinkedConnector.items_at Samples.two_linked_pages)
                             (LinkedConnector.chain Samples.two_linked_pages 2
                                LinkedConnector.seed)))].
Proof.
  apply (X10_only_the_last_loop_call_resolves_with_the_pages
           Samples.two_linked_pages LinkedConnector.seed 2 false
           (LinkedConnector.fresh LinkedConnector.constructor)).
  apply (LinkedConnector.more_pages Samples.two_linked_pages
           LinkedConnector.seed
           (Samples.linked_page [Samples.a; Samples.b] (Some "p2"))
           (VStr "p2") 1); try reflexivity.
  apply (LinkedConnector.last_page Samples.two_linked_pages (VStr "p2")
           (Samples.linked_page [Samples.c] None));
    try reflexivity; discriminate.
Defined.

Lemma paged_step_promises_next cfg up w c body :
  PagedConnector.inflight w = Some c ->
  up (VStr (PagedConnector.url c)) = Response body ->
  body <> VNull ->
  PagedConnector.promises (PagedConnector.step cfg up w)
  = PagedConnector.promises w ++ [Pending].
Proof.
  intros H Hr Hb. unfold PagedConnector.step. rewrite H, Hr.
  rewrite paged_on_response_next by exact Hb.
  now rewrite paged_getPages_out.
Qed.

Lemma paged_step_promises_last cfg up w c :
  PagedConnector.inflight w = Some c ->
  up (VStr (PagedConnector.url c)) = Response VNull ->
  PagedConnector.promises (PagedConnector.step cfg up w)
  = <[PagedConnector.returned c :=
        Resolved (VArr (PagedConnector.concatenatedResponse
                          (PagedConnector.vars w)))]>
      (PagedConnector.promises w).
Proof.
  intros H Hr. unfold PagedConnector.step. now rewrite H, Hr.
Qed.

Lemma paged_finite_promises cfg up p k :
  PagedConnector.finite_from cfg up p k ->
  forall w c ps,
    PagedConnector.inflight w = Some c ->
    PagedConnector.page c = p ->
    PagedConnector.url c = PagedConnector.page_url cfg p ->
    PagedConnector.promises w = ps ++ [Pending] ->
    PagedConnector.returned c = length ps ->
    PagedConnector.promises (PagedConnector.run cfg up k w)
    = ps ++ repeat Pending (k - 1)
         ++ [Resolved (VArr (PagedConnector.concatenatedResponse
                               (PagedConnector.vars w)))].
Proof.
  induction 1 as [p Hr | p body k Hr Hb Hfin IH];
    intros w c ps H Hpage Hu Hp Hret; subst p.
  - cbn. rewrite <- Hu in Hr.
    rewrite (paged_step_promises_last cfg up w c H Hr), Hp, Hret.
    rewrite insert_app_r_alt by lia. now rewrite Nat.sub_diag.
  - pose proof (paged_finite_positive _ _ _ _ Hfin) as Hk.
    pose proof (paged_step_inflight cfg up w c H) as Hi.
    rewrite <- Hu in Hr. rewrite Hr in Hi.
    assert (Hi' : PagedConnector.inflight (PagedConnector.step cfg up w)
                  = Some {| PagedConnector.page := js_incr (PagedConnector.page c);
                            PagedConnector.correlationId := PagedConnector.correlationId c;
                            PagedConnector.url :=
                              PagedConnector.page_url cfg
                                (js_incr (PagedConnector.page c));
                            PagedConnector.returned :=
                              length (PagedConnector.promises w) |})
      by (destruct body; congruence).
    change (PagedConnector.run cfg up (S k) w)
      with (PagedConnector.run cfg up k (PagedConnector.step cfg up w)).
    rewrite (IH _ _ (ps ++ [Pending]) Hi' eq_refl eq_refl).
    + replace (S k - 1) with (S (k - 1)) by lia. cbn.
      rewrite <- app_assoc. cbn.
      now rewrite (paged_step_vars cfg up w).
    + now rewrite (paged_step_promises_next cfg up w c body H Hr Hb), Hp.
    + cbn. rewrite Hp, !length_app. reflexivity.
Qed.

(** X11 (the page-number side).  Over a finite sequence of pages, [k - 1]
    bodies and then the [null] body, each at the number [page++] makes of
    the one before, each call of [getPages] but the last leaves its
    promise pending, the promise of the caller included when there is
    more than one page; only the call that fetched the [null] body
    resolves, with the module-level array as it was before the
    traversal. *)
Theorem X11_only_the_last_getPages_call_resolves :
  forall cfg up p k cid w,
    PagedConnector.finite_from cfg up p k ->
    PagedConnector.promises
      (PagedConnector.run cfg up k (snd (PagedConnector.getPages cfg p cid w)))
    = PagedConnector.promises w
      ++ repeat Pending (k - 1)
      ++ [Resolved (VArr (PagedConnector.concatenatedResponse
                            (PagedConnector.vars w)))].
Proof.
  intros cfg up p k cid w Hfin.
  rewrite (paged_finite_promises cfg up p k Hfin
             (snd (PagedConnector.getPages cfg p cid w))
             {| PagedConnector.page := p;
                PagedConnector.correlationId := cid;
                PagedConnector.url := PagedConnector.page_url cfg p;
                PagedConnector.returned := length (PagedConnector.promises w) |}
             (PagedConnector.promises w)
             (paged_getPages_inflight cfg p cid w) eq_refl eq_refl);
    [now rewrite paged_getPages_vars
    |now rewrite paged_getPages_out
    |reflexivity].
Qed.

(** X11 at work: the numbered pages, two bodies and the [null] body. *)
Lemma X11_witness :
  PagedConnector.promises
    (PagedConnector.run Samples.cfg Samples.two_numbered_pages 3
       (snd (PagedConnector.getPages Samples.cfg 1 "cid"
               (PagedConnector.fresh PagedConnector.loaded))))
  = PagedConnector.promises (PagedConnector.fresh PagedConnector.loaded)
    ++ repeat Pending (3 - 1)
    ++ [Resolved (VArr (PagedConnector.concatenatedResponse
                          (PagedConnector.vars
                             (PagedConnector.fresh PagedConnector.loaded))))].
Proof.
  apply (X11_only_the_last_getPages_call_resolves
           Samples.cfg Samples.two_numbered_pages 1%Z 3 "cid"
           (PagedConnector.fresh PagedConnector.loaded)).
  apply (PagedConnector.more_pages Samples.cfg Samples.two_numbered_pages
           1%Z (VArr [Samples.a; Samples.b]) 2);
    [reflexivity | discriminate |].
  apply (PagedConnector.more_pages Samples.cfg Samples.two_numbered_pages
           2%Z (VArr [Samples.c]) 1);
    [reflexivity | discriminate |].
  apply (PagedConnector.last_page Samples.cfg Samples.two_numbered_pages 3%Z).
  reflexivity.
Defined.

Lemma round_double_safe z :
  (- 2 ^ 53 <= z <= 2 ^ 53)%Z -> round_double z = z.
Proof.
  intros Hz.
  destruct (Z.eq_dec z (2 ^ 53)%Z) as [->|Hhi]; [reflexivity|].
  destruct (Z.eq_dec z (- 2 ^ 53)%Z) as [->|Hlo]; [reflexivity|].
  unfold round_double.
  assert (H : (Z.abs z <? 2 ^ 53)%Z = true) by (apply Z.ltb_lt; lia).
  now rewrite H.
Qed.

Lemma js_incr_iter_safe p : forall i,
  (- 2 ^ 53 <= p)%Z -> (p + Z.of_nat i <= 2 ^ 53)%Z ->
  Nat.iter i js_incr p = (p + Z.of_nat i)%Z.
Proof.
  induction i as [|i IH]; intros Hlo Hhi.
  - cbn. lia.
  - rewrite Nat.iter_succ, IH by lia. unfold js_incr.
    rewrite round_double_safe by lia. lia.
Qed.

Lemma js_incr_iter_stalled p : js_incr p = p -> forall i, Nat.iter i js_incr p = p.
Proof.
  intros H. induction i as [|i IH]; [reflexivity|].
  rewrite Nat.iter_succ, IH. exact H.
Qed.

Lemma paged_pages_from_iter cfg up : forall n p,
  exists k,
    k <= n /\ (1 <= n -> 1 <= k) /\
    PagedConnector.pages_from cfg up n p
    = map (fun i => Nat.iter i js_incr p) (seq 0 k) /\
    forall i, i + 1 < k ->
      exists body,
        up (VStr (PagedConnector.page_url cfg (Nat.iter i js_incr p)))
        = Response body /\
        body <> VNull.
Proof.
  induction n as [|n IH]; intros p.
  - exists 0. repeat split; try lia.
  - cbn [PagedConnector.pages_from].
    assert (Hstop : exists k, k <= S n /\ (1 <= S n -> 1 <= k) /\
              [p] = map (fun i => Nat.iter i js_incr p) (seq 0 k) /\
              forall i, i + 1 < k ->
                exists body,
                  up (VStr (PagedConnector.page_url cfg (Nat.iter i js_incr p)))
                  = Response body /\ body <> VNull).
    { exists 1. split; [lia|]. split; [lia|]. split.
      - reflexivity.
      - intros i Hi. lia. }
    destruct (up (VStr (PagedConnector.page_url cfg p))) as [body|reason] eqn:Hr;
      [|exact Hstop].
    assert (Hgo : body <> VNull ->
              exists k, k <= S n /\ (1 <= S n -> 1 <= k) /\
                p :: PagedConnector.pages_from cfg up n (js_incr p)
                = map (fun i => Nat.iter i js_incr p) (seq 0 k) /\
                forall i, i + 1 < k ->
                  exists body,
                    up (VStr (PagedConnector.page_url cfg (Nat.iter i js_incr p)))
                    = Response body /\ body <> VNull).
    { intros Hb. destruct (IH (js_incr p)) as (k & Hk & Hpos & Heq & Hall).
      exists (S k). split; [lia|]. split; [lia|]. split.
      - cbn [seq map]. f_equal. rewrite Heq.
        rewrite <- seq_shift, map_map. apply map_ext. intros i.
        symmetry. apply Nat.iter_succ_r.
      - intros [|i] Hi.
        + exists body. split; [exact Hr|exact Hb].
        + destruct (Hall i ltac:(lia)) as (body' & Hb' & Hne).
          exists body'. split; [|exact Hne].
          rewrite Nat.iter_succ_r. exact Hb'. }
    destruct body; try exact Hstop; apply Hgo; discriminate.
Qed.

(** X12.  The page-number traversal asks for one page at a time, each at
    the number [page++] makes of the one before: after [n] responses to
    a call for page [p] it has asked for [k] pages, [k] between 1 and
    [n + 1], and each but the last asked for came back with a body other
    than [null].  As long as the numbers stay within 2^53 these are the
    consecutive pages [p], [p + 1], ..., written with all their digits.
    At 2^53 the increment no longer changes the number: from there on
    the same page is asked for every time. *)
Theorem X12_pages_are_asked_for_in_sequence :
  (forall cfg up n p cid w,
     exists k,
       1 <= k <= S n /\
       PagedConnector.sent
         (PagedConnector.run cfg up n (snd (PagedConnector.getPages cfg p cid w)))
       = PagedConnector.sent w
         ++ map (fun i => page_fetch
                            (VStr (PagedConnector.page_url cfg
                                     (Nat.iter i js_incr p))))
                (seq 0 k) /\
       forall i, i + 1 < k ->
         exists body,
           up (VStr (PagedConnector.page_url cfg (Nat.iter i js_incr p)))
           = Response body /\
           body <> VNull) /\
  (forall p i,
     (- 2 ^ 53 <= p)%Z -> (p + Z.of_nat i <= 2 ^ 53)%Z ->
     Nat.iter i js_incr p = (p + Z.of_nat i)%Z) /\
  (forall p, (Z.abs p < 2 ^ 53)%Z -> number_to_string p = pretty p) /\
  (forall i, Nat.iter i js_incr (2 ^ 53)%Z = (2 ^ 53)%Z).
Proof.
  repeat apply conj.
  - intros cfg up n p cid w.
    destruct (paged_pages_from_iter cfg up (S n) p)
      as (k & Hk & Hpos & Heq & Hall).
    exists k. split; [lia|]. split; [|exact Hall].
    rewrite (paged_run_sent cfg up n (snd (PagedConnector.getPages cfg p cid w))
               {| PagedConnector.page := p;
                  PagedConnector.correlationId := cid;
                  PagedConnector.url := PagedConnector.page_url cfg p;
                  PagedConnector.returned := length (PagedConnector.promises w) |}
               (paged_getPages_inflight cfg p cid w) eq_refl).
    rewrite paged_getPages_out.
    cbn [PagedConnector.page PagedConnector.sent snd].
    rewrite <- app_assoc. f_equal.
    change ([page_fetch (VStr (PagedConnector.page_url cfg p))]
            ++ map (fun p0 => page_fetch (VStr (PagedConnector.page_url cfg p0)))
                   (tail (PagedConnector.pages_from cfg up (S n) p)))
      with (map (fun p0 => page_fetch (VStr (PagedConnector.page_url cfg p0)))
                (PagedConnector.pages_from cfg up (S n) p)).
    rewrite Heq, map_map. reflexivity.
  - intros p i. apply js_incr_iter_safe.
  - intros p Hp. unfold number_to_string.
    assert (H : (Z.abs p <? 2 ^ 53)%Z = true) by (apply Z.ltb_lt; lia).
    now rewrite H.
  - apply js_incr_iter_stalled. reflexivity.
Qed.

Lemma linked_next_read r nx :
  (let* l := get_prop r "_links" in get_prop l "next") = inr nx ->
  truthy nx = true ->
  LinkedConnector.next_test r = inr nx /\
  LinkedConnector.next_href r
  = (let* first := get_index nx 0 in get_prop first "href").
Proof.
  unfold LinkedConnector.next_test, LinkedConnector.next_href,
         LinkedConnector.js_and.
  destruct (get_prop r "_links") as [e|l]; cbn; [discriminate|].
  destruct l as [| |b0|n0|s0|xs0|nav]; cbn; try discriminate;
    try (intros [= <-]; discriminate).
  intros [= <-] Ht. split; reflexivity.
Qed.

Lemma linked_step_promises_href up w c r t h :
  LinkedConnector.inflight w = Some c ->
  up (LinkedConnector.url c) = Response r ->
  LinkedConnector.next_test r = inr t -> truthy t = true ->
  LinkedConnector.next_href r = inr h ->
  LinkedConnector.promises (LinkedConnector.step up w)
  = <[LinkedConnector.returned c := Resolved VUndefined]>
      (LinkedConnector.promises w
       ++ [if truthy h then Pending else Rejected Refused]).
Proof.
  intros H Hr Ht Htt Hh. unfold LinkedConnector.step. rewrite H, Hr.
  unfold LinkedConnector.on_response. rewrite Ht, Htt, Hh.
  cbv beta iota zeta.
  destruct (truthy h) eqn:E.
  - rewrite linked_loop_out by exact E. cbn.
    destruct (LinkedConnector.watched c); reflexivity.
  - rewrite linked_loop_refused by exact E. cbn.
    destruct (LinkedConnector.watched c); reflexivity.
Qed.

(** X13.  A next link of another shape than a list of objects with an
    [href].  However the truthy [_links.next] of a page looks, the values
    of the page are appended first.  When it has no first entry (an empty
    array, a number, [true], an object without a key 0), or its first
    entry is [null], the call is rejected with a TypeError and nothing
    further is asked for.  When it has one, the call resolves with
    [undefined] and [loop] is called with whatever the [href] of that
    entry is: a string that is not empty is asked for; a falsy [href]
    is not, the promise of that inner call is rejected at once and the
    traversal is over.  For a next link that is a plain string the
    [href] is [undefined], so this is what happens: one request has gone
    out, and of the two promises one has resolved with [undefined] and
    the other is rejected. *)
Theorem X13_next_link_of_another_shape :
  forall up u b w r nx,
    truthy u = true ->
    up u = Response r ->
    (let* l := get_prop r "_links" in get_prop l "next") = inr nx ->
    truthy nx = true ->
    let w' := LinkedConnector.step up (LinkedConnector.loop u b w) in
    let made := drop (length (LinkedConnector.promises w))
                     (LinkedConnector.promises w') in
    LinkedConnector.results (LinkedConnector.self w')
    = LinkedConnector.results (LinkedConnector.self w) ++ values r /\
    (get_index nx 0 = inr VUndefined \/ get_index nx 0 = inr VNull ->
     made = [Rejected TypeError] /\
     LinkedConnector.inflight w' = None /\
     LinkedConnector.sent w' = LinkedConnector.sent w ++ [page_fetch u]) /\
    (forall first h,
       get_index nx 0 = inr first -> get_prop first "href" = inr h ->
       (forall s,
          h = VStr s -> s <> EmptyString ->
          made = [Resolved VUndefined; Pending] /\
          LinkedConnector.sent w'
          = LinkedConnector.sent w ++ [page_fetch u; page_fetch h]) /\
       (truthy h = false ->
        made = [Resolved VUndefined; Rejected Refused] /\
        LinkedConnector.inflight w' = None /\
        LinkedConnector.sent w' = LinkedConnector.sent w ++ [page_fetch u])) /\
    (forall s,
       nx = VStr s ->
       made = [Resolved VUndefined; Rejected Refused] /\
       LinkedConnector.inflight w' = None /\
       LinkedConnector.sent w' = LinkedConnector.sent w ++ [page_fetch u]).
Proof.
  intros up u b w r nx Hu Hr Hnx Ht w' made. subst w' made.
  destruct (linked_next_read r nx Hnx Ht) as [Htest Hhref].
  pose (c := {| LinkedConnector.url := u;
                LinkedConnector.returned := length (LinkedConnector.promises w);
                LinkedConnector.watched := b |}).
  pose proof (linked_loop_inflight u b w Hu) as Hc. fold c in Hc.
  pose proof (linked_step_results up _ c Hc) as Hres.
  pose proof (linked_step_inflight up _ c Hc) as Hin.
  pose proof (linked_step_sent up _ c Hc) as Hsent.
  unfold LinkedConnector.next_of in Hin, Hsent.
  unfold LinkedConnector.items_at in Hres.
  cbn [LinkedConnector.url c] in Hres, Hin, Hsent.
  rewrite Hr in Hres, Hin, Hsent.
  rewrite Htest, Ht, Hhref in Hin, Hsent.
  rewrite linked_loop_results in Hres.
  assert (Hs0 : LinkedConnector.sent (LinkedConnector.loop u b w)
                = LinkedConnector.sent w ++ [page_fetch u])
    by (now rewrite linked_loop_out).
  assert (Hp0 : LinkedConnector.promises (LinkedConnector.loop u b w)
                = LinkedConnector.promises w ++ [Pending])
    by (now rewrite linked_loop_out).
  rewrite Hs0 in Hsent.
  assert (Hthrown : get_index nx 0 = inr VUndefined \/ get_index nx 0 = inr VNull ->
            LinkedConnector.promises
              (LinkedConnector.step up (LinkedConnector.loop u b w))
            = LinkedConnector.promises w ++ [Rejected TypeError]).
  { intros Hf. unfold LinkedConnector.step. rewrite Hc.
    cbn [LinkedConnector.url c]. rewrite Hr.
    unfold LinkedConnector.on_response. rewrite Htest, Ht, Hhref.
    destruct Hf as [Hf|Hf]; rewrite Hf; cbv beta iota zeta;
      unfold js_bind, get_prop, LinkedConnector.settle,
             LinkedConnector.set_promise;
      cbn [LinkedConnector.promises LinkedConnector.set_results
           LinkedConnector.set_inflight LinkedConnector.returned c];
      rewrite Hp0, insert_app_r_alt by lia; now rewrite Nat.sub_diag. }
  assert (Hhrefs : forall first h,
            get_index nx 0 = inr first -> get_prop first "href" = inr h ->
            LinkedConnector.promises
              (LinkedConnector.step up (LinkedConnector.loop u b w))
            = LinkedConnector.promises w
              ++ [Resolved VUndefined;
                  if truthy h then Pending else Rejected Refused]).
  { intros first h Hf Hh.
    assert (Hhr : LinkedConnector.next_href r = inr h).
    { rewrite Hhref, Hf. exact Hh. }
    rewrite (linked_step_promises_href up _ c r nx h Hc Hr Htest Ht Hhr).
    rewrite Hp0. cbn [LinkedConnector.returned c].
    rewrite <- app_assoc, insert_app_r_alt by lia.
    now rewrite Nat.sub_diag. }
  set (ws := LinkedConnector.step up (LinkedConnector.loop u b w)) in *.
  assert (Hfirst : forall first h,
            get_index nx 0 = inr first -> get_prop first "href" = inr h ->
            (truthy h = true ->
             drop (length (LinkedConnector.promises w))
                  (LinkedConnector.promises ws)
             = [Resolved VUndefined; Pending] /\
             LinkedConnector.sent ws
             = LinkedConnector.sent w ++ [page_fetch u; page_fetch h]) /\
            (truthy h = false ->
             drop (length (LinkedConnector.promises w))
                  (LinkedConnector.promises ws)
             = [Resolved VUndefined; Rejected Refused] /\
             LinkedConnector.inflight ws = None /\
             LinkedConnector.sent ws
             = LinkedConnector.sent w ++ [page_fetch u])).
  { intros first h Hf Hh.
    pose proof (Hhrefs first h Hf Hh) as Hp.
    rewrite Hf in Hin, Hsent. unfold js_bind in Hin, Hsent.
    rewrite Hh in Hin, Hsent.
    split; intros E; rewrite E in Hp, Hin, Hsent; rewrite Hp.
    - split; [now rewrite drop_app_length|].
      rewrite Hsent. now rewrite <- app_assoc.
    - split; [now rewrite drop_app_length|]. split; [exact Hin|].
      rewrite Hsent. now rewrite app_nil_r. }
  split; [exact Hres|]. split; [|split].
  - intros Hf. rewrite (Hthrown Hf), drop_app_length.
    destruct Hf as [Hf|Hf]; rewrite Hf in Hin, Hsent;
      unfold js_bind, get_prop in Hin, Hsent;
      (split; [reflexivity|]; split; [exact Hin|]);
      rewrite Hsent; now rewrite app_nil_r.
  - intros first h Hf Hh. destruct (Hfirst first h Hf Hh) as [Hyes Hno].
    split; [|exact Hno].
    intros s -> Hs. apply Hyes. destruct s; [contradiction|reflexivity].
  - intros s ->. cbn in Ht.
    destruct s as [|ch s]; [discriminate|].
    apply (Hfirst (VStr (String ch EmptyString)) VUndefined); reflexivity.
Qed.

(** X13 at work: the page whose next link is a plain string. *)
Lemma X13_witness :
  let w' := LinkedConnector.step MoreSamples.string_linked_page
              (LinkedConnector.loop (VStr "p1") false
                 (LinkedConnector.fresh LinkedConnector.constructor)) in
  drop (length (LinkedConnector.promises
                  (LinkedConnector.fresh LinkedConnector.constructor)))
       (LinkedConnector.promises w')
  = [Resolved VUndefined; Rejected Refused] /\
  LinkedConnector.inflight w' = None /\
  LinkedConnector.sent w'
  = LinkedConnector.sent (LinkedConnector.fresh LinkedConnector.constructor)
    ++ [page_fetch (VStr "p1")].
Proof.
  apply (proj2 (proj2 (proj2
           (X13_next_link_of_another_shape MoreSamples.string_linked_page
              (VStr "p1") false
              (LinkedConnector.fresh LinkedConnector.constructor)
              MoreSamples.next_as_string (VStr "p2")
              eq_refl eq_refl eq_refl eq_refl))) "p2" eq_refl).
Defined.

Lemma paged_step_threads_cid cfg up cid w :
  (forall c, PagedConnector.inflight w = Some c ->
             PagedConnector.correlationId c = cid) ->
  (forall c, PagedConnector.inflight (PagedConnector.step cfg up w) = Some c ->
             PagedConnector.correlationId c = cid) /\
  exists lines,
    PagedConnector.log (PagedConnector.step cfg up w)
    = PagedConnector.log w ++ lines /\
    forall msg c, In (InfoFor msg c) lines -> c = cid.
Proof.
  intros Hcid. destruct (PagedConnector.inflight w) as [c|] eqn:H.
  - specialize (Hcid c eq_refl). split.
    + intros c' H'. rewrite (paged_step_inflight cfg up w c H) in H'.
      destruct (up (VStr (PagedConnector.url c))) as [body|reason];
        [|discriminate].
      destruct body; try discriminate; now injection H' as <-.
    + unfold PagedConnector.step. rewrite H.
      destruct (up (VStr (PagedConnector.url c))) as [body|reason].
      * destruct body; cbn [PagedConnector.on_response];
          rewrite ?paged_getPages_out; cbn; rewrite <- ?app_assoc;
          eexists; (split; [reflexivity|]);
          cbn; intros msg c' Hin;
          repeat (destruct Hin as [Hin|Hin]; [try discriminate|]);
          try contradiction.
        now injection Hin as _ <-.
      * exists []. cbn. rewrite app_nil_r. split; [reflexivity|].
        intros msg c' [].
  - rewrite paged_step_idle by exact H. split.
    + intros c H'. congruence.
    + exists []. rewrite app_nil_r. split; [reflexivity|]. intros msg c [].
Qed.

Lemma paged_run_threads_cid cfg up cid : forall n w,
  (forall c, PagedConnector.inflight w = Some c ->
             PagedConnector.correlationId c = cid) ->
  (forall c, PagedConnector.inflight (PagedConnector.run cfg up n w) = Some c ->
             PagedConnector.correlationId c = cid) /\
  exists lines,
    PagedConnector.log (PagedConnector.run cfg up n w)
    = PagedConnector.log w ++ lines /\
    forall msg c, In (InfoFor msg c) lines -> c = cid.
Proof.
  induction n as [|n IH]; intros w Hcid.
  - split; [exact Hcid|]. exists []. rewrite app_nil_r.
    split; [reflexivity|]. intros msg c [].
  - destruct (paged_step_threads_cid cfg up cid w Hcid)
      as (Hcid' & l1 & Hl1 & Hall1).
    destruct (IH _ Hcid') as (Hcid'' & l2 & Hl2 & Hall2).
    split; [exact Hcid''|].
    exists (l1 ++ l2). cbn. rewrite Hl2, Hl1, <- app_assoc.
    split; [reflexivity|].
    intros msg c Hin. apply in_app_or in Hin. destruct Hin; eauto.
Qed.

(** X14.  The correlation identifier of a call of [getPages] of the
    page-number connector goes unchanged into every call the traversal
    makes for a later page, and every line the traversal logs with a
    correlation identifier carries that of the first call. *)
Theorem X14_correlation_id_is_threaded_through :
  forall cfg up n p cid w,
    let w' := PagedConnector.run cfg up n
                (snd (PagedConnector.getPages cfg p cid w)) in
    (forall c, PagedConnector.inflight w' = Some c ->
               PagedConnector.correlationId c = cid) /\
    exists lines,
      PagedConnector.log w' = PagedConnector.log w ++ lines /\
      forall msg c, In (InfoFor msg c) lines -> c = cid.
Proof.
  intros cfg up n p cid w w'.
  destruct (paged_run_threads_cid cfg up cid n
              (snd (PagedConnector.getPages cfg p cid w)))
    as (Hcid & lines & Hl & Hall).
  { intros c H. rewrite paged_getPages_inflight in H. now injection H as <-. }
  split; [exact Hcid|].
  exists ([Info (VStr (PagedConnector.page_url cfg p));
           Info (length_of (PagedConnector.concatenatedResponse
                              (PagedConnector.vars w)))] ++ lines).
  split.
  - subst w'. rewrite Hl. rewrite paged_getPages_out. cbn.
    rewrite <- !app_assoc. reflexivity.
  - intros msg c [H|[H|H]]; try discriminate. eauto.
Qed.

(** * Further properties: the template service *)

Section TemplateFacts.
Import TemplateService.

Lemma before_dot_dotless f : has_dot (before_dot f) = false.
Proof.
  induction f as [|c f IH]; [reflexivity|]. cbn [before_dot].
  destruct (String.eqb (String c EmptyString) ".") eqn:E; [reflexivity|].
  cbn [has_dot]. now rewrite E.
Qed.

Lemma before_dot_of_dotless f : has_dot f = false -> before_dot f = f.
Proof.
  induction f as [|c f IH]; [reflexivity|]. cbn [before_dot has_dot].
  destruct (String.eqb (String c EmptyString) "."); [discriminate|].
  intros H. now rewrite IH.
Qed.

Lemma before_dot_extension n rest :
  has_dot n = false -> before_dot (n +:+ "." +:+ rest) = n.
Proof.
  remember ("." +:+ rest) as tail eqn:Ht.
  induction n as [|c n IH]; [now subst tail|].
  change (String c n +:+ tail) with (String c (n +:+ tail)).
  cbn [before_dot has_dot].
  destruct (String.eqb (String c EmptyString) "."); [discriminate|].
  intros H. now rewrite IH.
Qed.

Lemma before_dot_prefix f : exists rest, f = before_dot f +:+ rest.
Proof.
  induction f as [|c f [rest IH]]; [now exists EmptyString|].
  cbn [before_dot].
  destruct (String.eqb (String c EmptyString) ".").
  - now exists (String c f).
  - exists rest.
    change (String c (before_dot f) +:+ rest)
      with (String c (before_dot f +:+ rest)).
    now rewrite <- IH.
Qed.

(** X15.  The name under which a file of the partials directory is
    registered is the file name up to its first dot: it has no dot in
    it, it is a prefix of the file name, a file name without a dot is its
    own partial name, and a dotless name followed by a dot and anything
    gives back that name, so that two files that differ only after the
    first dot are registered under one and the same name. *)
Theorem X15_partial_name_is_the_file_name_up_to_the_first_dot :
  (forall f, has_dot (before_dot f) = false) /\
  (forall f, exists rest, f = before_dot f +:+ rest) /\
  (forall f, has_dot f = false -> before_dot f = f) /\
  (forall n rest, has_dot n = false -> before_dot (n +:+ "." +:+ rest) = n) /\
  (forall n rest rest',
     has_dot n = false ->
     before_dot (n +:+ "." +:+ rest) = before_dot (n +:+ "." +:+ rest')).
Proof.
  repeat apply conj.
  - apply before_dot_dotless.
  - apply before_dot_prefix.
  - apply before_dot_of_dotless.
  - apply before_dot_extension.
  - intros n rest rest' H. now rewrite !before_dot_extension.
Qed.

Lemma register_all_partials lib hs : forall p hb,
  partials (snd (fold_left (register_one lib) hs (p, hb))) = partials hb.
Proof.
  induction hs as [|h hs IH]; intros p hb; [reflexivity|]. cbn.
  destruct (registerHelper_throws lib h); now rewrite IH.
Qed.

Lemma register_all_settled lib hs : forall o hb,
  fst (fold_left (register_one lib) hs (Some o, hb)) = Some o.
Proof.
  induction hs as [|h hs IH]; intros o hb; [reflexivity|]. cbn.
  destruct (registerHelper_throws lib h); now rewrite IH.
Qed.

Lemma register_all_accepted lib hs : forall p hb,
  (forall h, In h hs -> registerHelper_throws lib h = None) ->
  fst (fold_left (register_one lib) hs (p, hb)) = p.
Proof.
  induction hs as [|h hs IH]; intros p hb Hall; [reflexivity|]. cbn.
  rewrite (Hall h) by now left. apply IH. intros h' Hin. apply Hall. now right.
Qed.

Lemma register_all_first_refused lib pre h post e : forall hb,
  (forall h', In h' pre -> registerHelper_throws lib h' = None) ->
  registerHelper_throws lib h = Some e ->
  fst (fold_left (register_one lib) (pre ++ h :: post) (None, hb))
  = Some (Failed (Object e)).
Proof.
  induction pre as [|h0 pre IH]; intros hb Hpre He.
  - cbn. rewrite He. cbn. apply register_all_settled.
  - cbn. rewrite (Hpre h0) by now left. apply IH; [|exact He].
    intros h' Hin. apply Hpre. now right.
Qed.

Lemma register_all_keeps lib hs n v : forall p hb,
  helpers hb !! n = Some v ->
  (forall h, In h hs -> registerHelper_throws lib h = None -> name h <> n) ->
  helpers (snd (fold_left (register_one lib) hs (p, hb))) !! n = Some v.
Proof.
  induction hs as [|h hs IH]; intros p hb Hv Hother; [exact Hv|]. cbn.
  destruct (registerHelper_throws lib h) eqn:E.
  - apply IH; [exact Hv|]. intros h' Hin. apply Hother. now right.
  - apply IH.
    + cbn. rewrite lookup_insert_ne; [exact Hv|].
      apply Hother; [now left|exact E].
    + intros h' Hin. apply Hother. now right.
Qed.

Lemma register_all_registers lib pre h post : forall p hb,
  registerHelper_throws lib h = None ->
  (forall h', In h' post -> registerHelper_throws lib h' = None ->
              name h' <> name h) ->
  helpers (snd (fold_left (register_one lib) (pre ++ h :: post) (p, hb)))
    !! name h = Some (helper h).
Proof.
  induction pre as [|h0 pre IH]; intros p hb Hh Hpost.
  - cbn. rewrite Hh. apply register_all_keeps; [|exact Hpost].
    cbn. apply lookup_insert_eq.
  - cbn. destruct (registerHelper_throws lib h0); now apply IH.
Qed.

Lemma classic_first_refused lib hs :
  (forall h, In h hs -> registerHelper_throws lib h = None) \/
  exists pre h post e,
    hs = pre ++ h :: post /\
    (forall x, In x pre -> registerHelper_throws lib x = None) /\
    registerHelper_throws lib h = Some e.
Proof.
  induction hs as [|h hs IH].
  - left. intros h [].
  - destruct (registerHelper_throws lib h) as [e|] eqn:E.
    + right. exists [], h, hs, e. repeat split; auto. intros x [].
    + destruct IH as [Hall | (pre & h' & post & e & -> & Hp & He)].
      * left. intros x [<-|Hin]; auto.
      * right. exists (h :: pre), h', post, e. repeat split; auto.
        intros x [<-|Hin]; auto.
Qed.

(** X16.  [_registerHelpers] goes through the whole helper list whatever
    happens: its promise is rejected with the error of the first helper
    Handlebars refuses and fulfilled when none is refused, and every
    helper that is not refused is registered under its name, those that
    come after a refused one included (a later helper of the same name
    replaces it).  The partials are not touched. *)
Theorem X16_registerHelpers_registers_all_it_can :
  forall lib hb hs,
    handlebarsHelpers lib = Some hs ->
    partials (snd (_registerHelpers lib hb)) = partials hb /\
    ((forall h, In h hs -> registerHelper_throws lib h = None) ->
     fst (_registerHelpers lib hb) = Some (Fulfilled (VObj []))) /\
    (forall pre h post e,
       hs = pre ++ h :: post ->
       (forall h', In h' pre -> registerHelper_throws lib h' = None) ->
       registerHelper_throws lib h = Some e ->
       fst (_registerHelpers lib hb) = Some (Failed (Object e))) /\
    (forall pre h post,
       hs = pre ++ h :: post ->
       registerHelper_throws lib h = None ->
       (forall h', In h' post -> registerHelper_throws lib h' = None ->
                   name h' <> name h) ->
       helpers (snd (_registerHelpers lib hb)) !! name h = Some (helper h)).
Proof.
  intros lib hb hs Hhs. unfold _registerHelpers. rewrite Hhs.
  destruct (fold_left (register_one lib) hs (None, hb)) as [p hb'] eqn:E.
  cbn [fst snd].
  assert (Ep : p = fst (fold_left (register_one lib) hs (None, hb)))
    by now rewrite E.
  assert (Eh : hb' = snd (fold_left (register_one lib) hs (None, hb)))
    by now rewrite E.
  repeat apply conj.
  - rewrite Eh. apply register_all_partials.
  - intros Hall. rewrite Ep, register_all_accepted by exact Hall. reflexivity.
  - intros pre h post e -> Hpre He.
    rewrite Ep, (register_all_first_refused lib pre h post e hb Hpre He).
    reflexivity.
  - intros pre h post -> Hh Hpost. rewrite Eh.
    now apply register_all_registers.
Qed.





Lemma partial_read_outcome lib cfg hb f :
  (exists v, fst (partial_read lib cfg (None, hb) f) = Some (Fulfilled v)) \/
  exists e, fst (partial_read lib cfg (None, hb) f) = Some (Failed (Object e)).
Proof.
  unfold partial_read.
  destruct (readFile lib (partials_dir cfg +:+ "/" +:+ f)); cbn; eauto.
Qed.

Lemma partial_read_registry lib cfg p q hb f :
  snd (partial_read lib cfg (p, hb) f) = snd (partial_read lib cfg (q, hb) f).
Proof.
  unfold partial_read.
  now destruct (readFile lib (partials_dir cfg +:+ "/" +:+ f)).
Qed.

Lemma partial_reads_registry lib cfg l : forall p q hb,
  snd (fold_left (partial_read lib cfg) l (p, hb))
  = snd (fold_left (partial_read lib cfg) l (q, hb)).
Proof.
  induction l as [|f l IH]; intros p q hb; [reflexivity|]. cbn [fold_left].
  pose proof (partial_read_registry lib cfg p q hb f) as E.
  destruct (partial_read lib cfg (p, hb) f) as [p' hb'].
  destruct (partial_read lib cfg (q, hb) f) as [q' hb''].
  cbn in E. subst hb''. apply IH.
Qed.

Lemma completion_order_nonempty picks f l :
  completion_order picks (length (f :: l)) (f :: l) <> [].
Proof. cbn. discriminate. Qed.






(** X18.  What [render] resolves with is the minified rendering of the
    template file: the file at [root/pages/templates/name/template] was
    read, its source rendered over [{ body: data, baseUrl, wordpressUrl
    }], the result minified with the four options set, and no helper was
    refused on the way. *)
Theorem X18_render_resolves_with_the_minified_rendering :
  forall lib cfg picks early name_ template data correlationId w v,
    fst (render lib cfg picks early name_ template data correlationId w)
    = Some (Fulfilled v) ->
    (forall hs, handlebarsHelpers lib = Some hs ->
       forall h, In h hs -> registerHelper_throws lib h = None) /\
    exists source hb html html',
      readFile lib (template_path cfg name_ template) = inr source /\
      fst (execute lib hb (Some source) (templateData cfg data)) = inr html /\
      minify lib (VStr html) the_minify_options = inr html' /\
      v = VStr html'.
Proof.
  intros lib cfg picks early name_ template data cid w v.
  unfold render.
  destruct (_registerHelpers lib (registry w)) as [p1 hb1] eqn:E1.
  destruct p1 as [[v1|e1]|];
    [|destruct e1; discriminate|discriminate].
  destruct (_registerPartials lib cfg picks hb1) as [[p2 hb2] later].
  destruct p2 as [[v2|e2]|];
    [|destruct e2; discriminate|discriminate].
  set (hb3 := late_reads lib cfg (Some (Fulfilled v2)) hb2 (take early later)).
  destruct (_renderTemplate lib cfg hb3 name_ template data)
    as [[[html|e3]|] hb3'] eqn:E3;
    [|destruct e3; discriminate|discriminate].
  destruct (_minifyRenderedTemplate lib html) as [[html'|e4]|] eqn:E4;
    [|destruct e4; discriminate|discriminate].
  cbn. intros [= <-]. split.
  - intros hs Hhs.
    destruct (classic_first_refused lib hs)
      as [Hall | (pre & h' & post & e & -> & Hp & He)]; [exact Hall|].
    exfalso. unfold _registerHelpers in E1. rewrite Hhs in E1.
    pose proof (register_all_first_refused lib pre h' post e (registry w) Hp He)
      as Hf.
    destruct (fold_left (register_one lib) (pre ++ h' :: post) (None, registry w))
      as [p hb']. cbn in Hf. subst p. cbn in E1. discriminate.
  - unfold _renderTemplate in E3. unfold template_path.
    destruct (readFile lib ((root cfg +:+ "/pages/templates") +:+ "/" +:+ name_
                            +:+ "/" +:+ template)) as [e|source] eqn:Er.
    + destruct (execute lib hb3 None (templateData cfg data)) as [[r|h0] hbx];
        cbn in E3; discriminate.
    + destruct (execute lib hb3 (Some source) (templateData cfg data))
        as [[e|html0] hbx] eqn:Ex; [discriminate|].
      cbn in E3. injection E3 as <- _.
      unfold _minifyRenderedTemplate in E4.
      fold the_minify_options in E4.
      destruct (minify lib (VStr html0) the_minify_options) as [e|m] eqn:Em;
        [discriminate|].
      cbn in E4. injection E4 as <-.
      exists source, hb3, html0, m. rewrite Ex. auto.
Qed.

Lemma completion_order_perm : forall n picks l,
  length l = n -> completion_order picks n l ≡ₚ l.
Proof.
  induction n as [|n IH]; intros picks l Hlen.
  - destruct l; [reflexivity|discriminate].
  - destruct l as [|first rest]; [discriminate|].
    cbn [completion_order].
    set (k := hd 0 picks mod length (first :: rest)).
    assert (Hk : k < length (first :: rest))
      by (apply Nat.mod_upper_bound; cbn; lia).
    destruct (lookup_lt_is_Some_2 (first :: rest) k Hk) as [x Hx].
    rewrite (nth_lookup_Some _ _ first _ Hx).
    rewrite IH.
    + symmetry. now apply delete_Permutation.
    + rewrite length_delete by eauto. cbn in *. lia.
Qed.

(** The text registered under the partial name of a readable file [f],
    when no other file of the list has that name. *)
Lemma partial_reads_keep lib cfg f source l : forall p hb,
  readFile lib (partials_dir cfg +:+ "/" +:+ f) = inr source ->
  (forall f', In f' l -> before_dot f' = before_dot f -> f' = f) ->
  text_of <$> partials hb !! before_dot f = Some source ->
  text_of <$> partials (snd (fold_left (partial_read lib cfg) l (p, hb)))
                !! before_dot f
  = Some source.
Proof.
  induction l as [|g l IH]; intros p hb Hread Hother Hn; [exact Hn|].
  cbn [fold_left]. unfold partial_read at 2.
  assert (Hother' : forall f', In f' l -> before_dot f' = before_dot f -> f' = f)
    by (intros f' Hin; apply Hother; now right).
  destruct (readFile lib (partials_dir cfg +:+ "/" +:+ g)) as [e|src] eqn:Er.
  - now apply IH.
  - apply IH; [exact Hread|exact Hother'|]. cbn [partials].
    destruct (decide (before_dot g = before_dot f)) as [Heq|Hne].
    + assert (g = f) as -> by (apply Hother; [now left|exact Heq]).
      rewrite lookup_insert_eq. cbn. congruence.
    + now rewrite lookup_insert_ne.
Qed.

Lemma partial_reads_register lib cfg f source l : forall p hb,
  readFile lib (partials_dir cfg +:+ "/" +:+ f) = inr source ->
  (forall f', In f' l -> before_dot f' = before_dot f -> f' = f) ->
  In f l ->
  text_of <$> partials (snd (fold_left (partial_read lib cfg) l (p, hb)))
                !! before_dot f
  = Some source.
Proof.
  induction l as [|g l IH]; intros p hb Hread Hother Hin; [destruct Hin|].
  assert (Hother' : forall f', In f' l -> before_dot f' = before_dot f -> f' = f)
    by (intros f' Hin'; apply Hother; now right).
  cbn [fold_left].
  destruct (decide (g = f)) as [->|Hne].
  - unfold partial_read at 2. rewrite Hread.
    apply partial_reads_keep; [exact Hread|exact Hother'|].
    cbn [partials]. now rewrite lookup_insert_eq.
  - destruct Hin as [->|Hin]; [contradiction|].
    destruct (partial_read lib cfg (p, hb) g) as [p' hb'].
    now apply IH.
Qed.

Lemma registerHelpers_accepted lib hb :
  (forall hs h, handlebarsHelpers lib = Some hs -> In h hs ->
                registerHelper_throws lib h = None) ->
  fst (_registerHelpers lib hb) = Some (Fulfilled (VObj [])).
Proof.
  intros Hall. unfold _registerHelpers.
  destruct (handlebarsHelpers lib) as [hs|]; [|reflexivity].
  destruct (fold_left (register_one lib) hs (None, hb)) as [p hb'] eqn:Ef.
  assert (Hp : p = None).
  { change p with (fst (p, hb')). rewrite <- Ef.
    apply register_all_accepted. intros h Hin. now apply (Hall hs). }
  now subst p.
Qed.

Lemma late_reads_cons lib cfg p q hb g l :
  late_reads lib cfg p (snd (partial_read lib cfg (q, hb) g)) l
  = late_reads lib cfg q hb (g :: l).
Proof.
  unfold late_reads. cbn [fold_left].
  etransitivity;
    [exact (partial_reads_registry lib cfg l p
              (fst (partial_read lib cfg (q, hb) g))
              (snd (partial_read lib cfg (q, hb) g)))|].
  f_equal. f_equal. symmetry. apply surjective_pairing.
Qed.

(** X19.  Whether the file of a partial is read before or after the
    template is run, and whether or not [render] succeeds, the partial
    ends up registered with the text of the file.  When no helper is
    refused, the directory can be listed and running a template leaves
    every partial with the text it had (compiling the ones it uses, as
    Handlebars does), then once [render] and the reads it started are
    through, every file of the directory that can be read is registered
    under its partial name with its content, as source or compiled,
    provided no other file of the directory has the same partial name;
    this does not depend on the order in which the reads complete nor on
    where the read of the template falls among them. *)
Theorem X19_every_readable_partial_ends_up_registered :
  forall lib cfg picks early name_ template data correlationId w files f source,
    (forall hs h, handlebarsHelpers lib = Some hs -> In h hs ->
                  registerHelper_throws lib h = None) ->
    (forall hb src d n,
       text_of <$> partials (snd (execute lib hb src d)) !! n
       = text_of <$> partials hb !! n) ->
    readdir lib (partials_dir cfg) = inr files ->
    In f files ->
    readFile lib (partials_dir cfg +:+ "/" +:+ f) = inr source ->
    (forall f', In f' files -> before_dot f' = before_dot f -> f' = f) ->
    text_of <$>
      partials
        (registry
           (snd (render lib cfg picks early name_ template data correlationId w)))
        !! before_dot f
    = Some source.
Proof.
  intros lib cfg picks early name_ template data cid w files f source
         Hacc Hexec Hdir Hin Hread Huniq.
  pose proof (completion_order_perm (length files) picks files eq_refl) as Hperm.
  unfold render.
  pose proof (registerHelpers_accepted lib (registry w) Hacc) as H1.
  destruct (_registerHelpers lib (registry w)) as [p1 hb1].
  cbn [fst] in H1. subst p1.
  unfold _registerPartials. rewrite Hdir.
  destruct files as [|f0 files]; [destruct Hin|].
  destruct (completion_order picks (length (f0 :: files)) (f0 :: files))
    as [|first later] eqn:Eo;
    [now apply completion_order_nonempty in Eo|].
  assert (Hin' : In f (first :: later)).
  { apply list_elem_of_In. rewrite Hperm. now apply list_elem_of_In. }
  assert (Huniq' : forall f', In f' (first :: later) ->
                     before_dot f' = before_dot f -> f' = f).
  { intros f' Hf'. apply Huniq. apply list_elem_of_In. rewrite <- Hperm.
    now apply list_elem_of_In. }
  clear Hperm Eo Hin Huniq Hdir.
  destruct (partial_read_outcome lib cfg hb1 first) as [[v2 H2]|[e2 H2]].
  - (* the promise of [_registerPartials] is fulfilled *)
    destruct (partial_read lib cfg (None, hb1) first) as [p2 hb2] eqn:E2.
    assert (Hp2 : p2 = Some (Fulfilled v2)).
    { first [exact H2
            |change p2 with (fst (p2, hb2)); rewrite <- E2; exact H2]. }
    assert (Hpre : late_reads lib cfg (Some (Fulfilled v2)) hb2
                     (take early later)
                   = late_reads lib cfg None hb1 (first :: take early later)).
    { change hb2 with (snd (p2, hb2)). rewrite <- E2. apply late_reads_cons. }
    subst p2. clear E2.
    set (hb3 := late_reads lib cfg (Some (Fulfilled v2)) hb2 (take early later))
      in *.
    assert (Hafter : forall p3 hb3' q,
              _renderTemplate lib cfg hb3 name_ template data = (p3, hb3') ->
              text_of <$>
                partials (late_reads lib cfg q hb3' (drop early later))
                  !! before_dot f
              = Some source).
    { intros p3 hb3' q E3.
      assert (Hkeep : forall n, text_of <$> partials hb3' !! n
                                = text_of <$> partials hb3 !! n).
      { intros n. unfold _renderTemplate in E3.
        destruct (readFile lib ((root cfg +:+ "/pages/templates") +:+ "/"
                                +:+ name_ +:+ "/" +:+ template)) as [e|src];
          cbv beta iota in E3;
          [destruct (execute lib hb3 None (templateData cfg data))
             as [out hbx] eqn:Ex
          |destruct (execute lib hb3 (Some src) (templateData cfg data))
             as [out hbx] eqn:Ex];
          injection E3 as _ <-;
          change hbx with (snd (out, hbx)); rewrite <- Ex; apply Hexec. }
      assert (Hdrop : forall f', In f' (drop early later) ->
                        before_dot f' = before_dot f -> f' = f).
      { intros f' Hf'. apply Huniq'. right.
        rewrite <- (take_drop early later). apply in_or_app. now right. }
      assert (Hsplit : In f (first :: take early later)
                       \/ In f (drop early later)).
      { destruct Hin' as [->|Hl]; [left; now left|].
        rewrite <- (take_drop early later) in Hl.
        apply in_app_or in Hl. destruct Hl; [left; now right|now right]. }
      unfold late_reads. destruct Hsplit as [Hbefore|Hlate].
      - apply partial_reads_keep; [exact Hread|exact Hdrop|].
        rewrite Hkeep, Hpre. unfold late_reads.
        apply partial_reads_register; [exact Hread| |exact Hbefore].
        intros f' [->|Hf']; apply Huniq'; [now left|right].
        rewrite <- (take_drop early later). apply in_or_app. now left.
      - now apply partial_reads_register. }
    destruct (_renderTemplate lib cfg hb3 name_ template data)
      as [p3 hb3'] eqn:E3.
    pose proof (Hafter p3 hb3' (Some (Fulfilled v2)) eq_refl) as Hreg.
    destruct p3 as [[html|e3]|]; [|exact Hreg|exact Hreg].
    destruct (_minifyRenderedTemplate lib html) as [[html'|e4]|]; exact Hreg.
  - (* the first read failed: the reads go on and the template is not run *)
    destruct (partial_read lib cfg (None, hb1) first) as [p2 hb2] eqn:E2.
    assert (Hp2 : p2 = Some (Failed (Object e2))).
    { first [exact H2
            |change p2 with (fst (p2, hb2)); rewrite <- E2; exact H2]. }
    assert (Hall : late_reads lib cfg (Some (Failed (Object e2))) hb2 later
                   = late_reads lib cfg None hb1 (first :: later)).
    { change hb2 with (snd (p2, hb2)). rewrite <- E2. apply late_reads_cons. }
    subst p2. cbn [on_error snd registry].
    rewrite Hall. unfold late_reads.
    now apply partial_reads_register.
Qed.

(** X20.  A refused helper fails [render] before anything is read: the
    promise is rejected with the error of the first refused helper, its
    [correlationId] set, and the partials are as they were. *)
Theorem X20_refused_helper_fails_render_at_once :
  forall lib cfg picks early name_ template data correlationId w pre h post e,
    handlebarsHelpers lib = Some (pre ++ h :: post) ->
    (forall h', In h' pre -> registerHelper_throws lib h' = None) ->
    registerHelper_throws lib h = Some e ->
    fst (render lib cfg picks early name_ template data correlationId w)
    = Some (Failed (Object (set_prop "correlationId" correlationId e))) /\
    partials
      (registry
         (snd (render lib cfg picks early name_ template data correlationId w)))
    = partials (registry w).
Proof.
  intros lib cfg picks early name_ template data cid w pre h post e
         Hhs Hpre He.
  unfold render.
  pose proof (register_all_first_refused lib pre h post e (registry w) Hpre He)
    as Hf.
  pose proof (register_all_partials lib (pre ++ h :: post) None (registry w))
    as Hp.
  unfold _registerHelpers. rewrite Hhs.
  destruct (fold_left (register_one lib) (pre ++ h :: post) (None, registry w))
    as [p hb'] eqn:Ef.
  assert (Ep : p = Some (Failed (Object e))) by exact Hf.
  assert (Eh : partials hb' = partials (registry w)).
  { change hb' with (snd (p, hb')). rewrite <- Ef. exact Hp. }
  subst p. cbn. split; [reflexivity|exact Eh].
Qed.

End TemplateFacts.

(** X16 at work: the helper list with a refused helper in the middle. *)
Lemma X16_witness :
  TemplateService.handlebarsHelpers MoreSamples.refusing_libraries
  = Some [MoreSamples.upper; MoreSamples.broken; MoreSamples.lower] /\
  fst (TemplateService._registerHelpers MoreSamples.refusing_libraries
         (TemplateService.registry MoreSamples.no_registrations))
  = Some (TemplateService.Failed (TemplateService.Object MoreSamples.refusal)) /\
  TemplateService.helpers
    (snd (TemplateService._registerHelpers MoreSamples.refusing_libraries
            (TemplateService.registry MoreSamples.no_registrations)))
    !! "lower"
  = Some (VStr "function").
Proof.
  split; [reflexivity|].
  pose proof (X16_registerHelpers_registers_all_it_can
                MoreSamples.refusing_libraries
                (TemplateService.registry MoreSamples.no_registrations)
                [MoreSamples.upper; MoreSamples.broken; MoreSamples.lower]
                eq_refl) as (_ & _ & Hfirst & Hall).
  split.
  - apply (Hfirst [MoreSamples.upper] MoreSamples.broken [MoreSamples.lower]);
      [reflexivity| |reflexivity].
    intros h' [<-|[]]. reflexivity.
  - apply (Hall [MoreSamples.upper; MoreSamples.broken] MoreSamples.lower []);
      [reflexivity|reflexivity|].
    intros h' [].
Defined.


(** X18 at work: the plain libraries. *)
Lemma X18_witness :
  fst (TemplateService.render MoreSamples.plain_libraries MoreSamples.site
         [1] 0 "home" "index.handlebars" (VStr "body") (VStr "cid-1")
         MoreSamples.no_registrations)
  = Some (TemplateService.Fulfilled
            (VStr "</srv/pages/templates/home/index.handlebars>")) /\
  exists source hb html html',
    TemplateService.readFile MoreSamples.plain_libraries
      (TemplateService.template_path MoreSamples.site "home" "index.handlebars")
    = inr source /\
    fst (TemplateService.execute MoreSamples.plain_libraries hb (Some source)
           (TemplateService.templateData MoreSamples.site (VStr "body")))
    = inr html /\
    TemplateService.minify MoreSamples.plain_libraries (VStr html)
      TemplateService.the_minify_options
    = inr html' /\
    VStr "</srv/pages/templates/home/index.handlebars>" = VStr html'.
Proof.
  split; [reflexivity|].
  exact (proj2 (X18_render_resolves_with_the_minified_rendering
                  MoreSamples.plain_libraries MoreSamples.site
                  [1] 0 "home" "index.handlebars" (VStr "body") (VStr "cid-1")
                  MoreSamples.no_registrations _ eq_refl)).
Defined.

(** X19 at work: the partial [header], read first and compiled when the
    template is run. *)
Lemma X19_witness :
  TemplateService.text_of <$>
    TemplateService.partials
      (TemplateService.registry
         (snd (TemplateService.render MoreSamples.plain_libraries MoreSamples.site
                 [0] 0 "home" "index.handlebars" (VStr "body") (VStr "cid-1")
                 MoreSamples.no_registrations)))
      !! "header"
  = Some "</srv/pages/templates/_partials/header.handlebars>".
Proof.
  apply (X19_every_readable_partial_ends_up_registered
           MoreSamples.plain_libraries MoreSamples.site
           [0] 0 "home" "index.handlebars" (VStr "body") (VStr "cid-1")
           MoreSamples.no_registrations
           ["header.handlebars"; "footer.handlebars"]
           "header.handlebars").
  - intros hs h _ _. reflexivity.
  - intros hb src d n. cbn.
    destruct (decide (n = "header")) as [->|Hne].
    + rewrite lookup_alter_eq.
      destruct (TemplateService.partials hb !! "header") as [[text|text]|];
        reflexivity.
    + now rewrite lookup_alter_ne.
  - reflexivity.
  - left. reflexivity.
  - reflexivity.
  - intros f' [<-|[<-|[]]] E; [reflexivity|discriminate E].
Defined.

(** X20 at work: the refused helper. *)
Lemma X20_witness :
  fst (TemplateService.render MoreSamples.refusing_libraries MoreSamples.site
         [] 0 "home" "index.handlebars" (VStr "body") (VStr "cid-1")
         MoreSamples.no_registrations)
  = Some (TemplateService.Failed
            (TemplateService.Object
               (TemplateService.set_prop "correlationId" (VStr "cid-1")
                  MoreSamples.refusal))) /\
  TemplateService.partials
    (TemplateService.registry
       (snd (TemplateService.render MoreSamples.refusing_libraries
               MoreSamples.site [] 0 "home" "index.handlebars" (VStr "body")
               (VStr "cid-1") MoreSamples.no_registrations)))
  = TemplateService.partials
      (TemplateService.registry MoreSamples.no_registrations).
Proof.
  apply (X20_refused_helper_fails_render_at_once
           MoreSamples.refusing_libraries MoreSamples.site
           [] 0 "home" "index.handlebars" (VStr "body") (VStr "cid-1")
           MoreSamples.no_registrations
           [MoreSamples.upper] MoreSamples.broken [MoreSamples.lower]
           MoreSamples.refusal).
  - reflexivity.
  - intros h' [<-|[]]. reflexivity.
  - reflexivity.
Defined.
